(** * microunit: the self-registering catalog, the driver and the assertion macros

    A shallow embedding of [src/microunit.h] (and of the four cases of
    [src/sample.cpp]) together with the properties of its registration and
    execution core.

    Modelling conventions.
    - [std::string] is [string]; [std::less<std::string>] is the
      lexicographic order on unsigned character codes, [String.compare].
    - [std::map<std::string, UnitFunction>] is the list of its entries in
      iteration order, i.e. strictly increasing in the key.
    - A [UnitFunction] is a C++ function pointer.  Calling it may read and
      write the client-visible program state [G] (globals, heap, ...), may
      write lines to [std::cout], may write the [UnitFunctionResult] it was
      handed, and may fail to return (loop forever, abort the process):
      [None].  [std::cout] is write-only, so the lines a call emits are a
      result of the call and not an input to it.
    - [std::cout] is the list of the lines written so far; every write in
      [microunit.h] ends in [std::endl].
    - The private map of the singleton is not part of [G]: test functions
      run after the registration phase and do not register cases. *)

From Stdlib Require Import List String ZArith Lia.
From Stdlib Require Import Sorted Permutation DecimalString OrderedTypeEx.
Import ListNotations.
Local Open Scope string_scope.
Local Open Scope list_scope.

(** ** Constants and the result record *)

(** [#define MICROUNIT_SEPARATOR "----...----" "----...----"] *)
Definition MICROUNIT_SEPARATOR : string :=
  "----------------------------------------" ++
  "----------------------------------------".

(** [struct UnitFunctionResult { bool success{ true }; };] *)
Record UnitFunctionResult : Type := { success : bool }.

(** The default member initializer: what [UnitFunctionResult result;]
    constructs. *)
Definition UnitFunctionResult_default : UnitFunctionResult :=
  {| success := true |}.

(** [operator<<(std::ostream&, size_t)]: the decimal numeral. *)
Definition decimal (n : nat) : string :=
  NilEmpty.string_of_uint (Nat.to_uint n).

Section Microunit.

Context {G : Type}.

(** [typedef void(*UnitFunction)(UnitFunctionResult*);] *)
Definition UnitFunction : Type :=
  UnitFunctionResult -> G -> option (UnitFunctionResult * G * list string).

(** ** [std::map<std::string, UnitFunction>] *)

Definition unit_map : Type := list (string * UnitFunction).

(** [std::map::emplace]: the pair is inserted at its place in key order
    unless an entry with an equivalent key exists, in which case the map
    is left as it is. *)
Fixpoint emplace (name : string) (function : UnitFunction) (m : unit_map)
  : unit_map :=
  match m with
  | [] => [(name, function)]
  | (k, f) :: m' =>
      match String.compare name k with
      | Lt => (name, function) :: m
      | Eq => m
      | Gt => (k, f) :: emplace name function m'
      end
  end.

(** [std::map::find], used to state what the catalog binds a name to. *)
Fixpoint map_find (name : string) (m : unit_map) : option UnitFunction :=
  match m with
  | [] => None
  | (k, f) :: m' => if String.eqb name k then Some f else map_find name m'
  end.

(** [std::map::count]. *)
Definition map_count (name : string) (m : unit_map) : nat :=
  List.length (filter (fun e => String.eqb name (fst e)) m).

(** ** [class UnitTester] and the process state *)

Record UnitTester : Type := { unitfunction_map_ : unit_map }.

(** What a default-constructed [UnitTester] holds: an empty map. *)
Definition UnitTester_new : UnitTester := {| unitfunction_map_ := [] |}.

(** The state of the running program: the function-local
    [static UnitTester instance] of [Instance()] ([None] until the first
    call constructs it), the client-visible state, and [std::cout]. *)
Record Process : Type := {
  instance : option UnitTester;
  globals : G;
  cout : list string
}.

(** [static UnitTester& Instance()] *)
Definition Instance (p : Process) : UnitTester * Process :=
  match instance p with
  | Some t => (t, p)
  | None =>
      (UnitTester_new,
       {| instance := Some UnitTester_new;
          globals := globals p; cout := cout p |})
  end.

(** [std::cout << line << std::endl] *)
Definition endl (line : string) (p : Process) : Process :=
  {| instance := instance p; globals := globals p;
     cout := cout p ++ [line] |}.

(** [static void RegisterFunction(const std::string &name,
                                  UnitFunction function)] *)
Definition RegisterFunction (name : string) (function : UnitFunction)
  (p : Process) : Process :=
  let '(t, p) := Instance p in
  {| instance :=
       Some {| unitfunction_map_ :=
                 emplace name function (unitfunction_map_ t) |};
     globals := globals p; cout := cout p |}.

(** [Registrator::Registrator(name, function)] *)
Definition Registrator (name : string) (function : UnitFunction)
  (p : Process) : Process :=
  RegisterFunction name function p.

(** Static initialization: the [Registrator] objects of a translation unit
    are constructed in declaration order. *)
Definition static_init (units : list (string * UnitFunction))
  (p : Process) : Process :=
  fold_left (fun p u => Registrator (fst u) (snd u) p) units p.

(** ** [UnitTester::Run] *)

(** The [for (auto& unit : Instance().unitfunction_map_)] loop, over the
    entries still to visit; [failures] is the local vector. *)
Fixpoint Run_loop (units : unit_map) (failures : list string) (p : Process)
  : option (list string * Process) :=
  match units with
  | [] => Some (failures, p)
  | unit :: units' =>
      let p := endl MICROUNIT_SEPARATOR p in
      let p := endl ("[    ] Test case '" ++ fst unit ++ "'") p in
      let result := UnitFunctionResult_default in
      match snd unit result (globals p) with
      | None => None
      | Some (result, g, out) =>
          let p := {| instance := instance p; globals := g;
                      cout := cout p ++ out |} in
          let p := endl (if success result then "[    ] Success"
                         else "[!!!!] Failure") p in
          let failures :=
            if negb (success result) then failures ++ [fst unit]
            else failures in
          Run_loop units' failures p
      end
  end.

(** The summary printed after the loop, and the value returned. *)
Definition Run_summary (failures : list string) (p : Process)
  : bool * Process :=
  let p := endl MICROUNIT_SEPARATOR p in
  let p := endl MICROUNIT_SEPARATOR p in
  match failures with
  | [] =>
      let p := endl "[    ] All tests passed" p in
      let p := endl MICROUNIT_SEPARATOR p in
      (true, p)
  | _ :: _ =>
      let p := endl ("[!!!!] Failed " ++ decimal (List.length failures)
                     ++ " test cases:") p in
      let p := fold_left (fun p failure => endl ("> " ++ failure) p)
                 failures p in
      let p := endl MICROUNIT_SEPARATOR p in
      (false, p)
  end.

(** [static bool Run()] *)
Definition Run (p : Process) : option (bool * Process) :=
  let '(t, p) := Instance p in
  match Run_loop (unitfunction_map_ t) [] p with
  | None => None
  | Some (failures, p) => Some (Run_summary failures p)
  end.

(** ** Test case bodies

    The body of a [UNIT] is C++ code; it is embedded as a computation over
    the object [*__microunit_testresult] and the client-visible state, which
    may emit lines, may execute [return;] and may fail to complete. *)

(** How a statement completes: control reaches the next statement, or a
    [return;] was executed. *)
Inductive completion : Type := Normal | Return.

Definition State : Type := (UnitFunctionResult * G)%type.

Definition M (A : Type) : Type :=
  State -> option (A * State * list string).

Definition ret {A : Type} (a : A) : M A := fun st => Some (a, st, []).

Definition bind {A B : Type} (m : M A) (k : A -> M B) : M B :=
  fun st =>
    match m st with
    | None => None
    | Some (a, st1, out1) =>
        match k a st1 with
        | None => None
        | Some (b, st2, out2) => Some (b, st2, out1 ++ out2)
        end
    end.

Definition stmt : Type := M completion.
Definition expr (A : Type) : Type := M A.

(** The empty statement. *)
Definition skip : stmt := ret Normal.

(** [s1 s2]: the second statement runs only if the first one did not
    return. *)
Definition seq (s1 s2 : stmt) : stmt :=
  bind s1 (fun c => match c with Normal => s2 | Return => ret Return end).

(** [return;] *)
Definition return_ : stmt := ret Return.

(** [std::cout << line << std::endl;] *)
Definition cout_endl (line : string) : stmt :=
  fun st => Some (Normal, st, [line]).

(** [__microunit_testresult->success = b;] *)
Definition set_success (b : bool) : stmt :=
  fun st => Some (Normal, ({| success := b |}, snd st), []).

(** [if (c) { s }] *)
Definition if_ (c : expr bool) (s : stmt) : stmt :=
  bind c (fun b => if b then s else skip).

(** [!(c)] *)
Definition not_ (c : expr bool) : expr bool :=
  bind c (fun b => ret (negb b)).

(** [for (int i = i0; ...; ++i) { body }] with [n] iterations left, for a
    body that does not assign [i]. *)
Fixpoint for_ (n : nat) (i : Z) (body : Z -> stmt) : stmt :=
  match n with
  | O => skip
  | S n' => seq (body i) (for_ n' (i + 1)%Z body)
  end.

(** [#define PASS()] *)
Definition PASS : stmt :=
  seq (set_success true) return_.

(** [#define FAIL()] *)
Definition FAIL : stmt :=
  seq (cout_endl "[    ] Test failed ")
      (seq (set_success false) return_).

(** [#define ASSERT_TRUE(condition)]; [text] is [#condition]. *)
Definition ASSERT_TRUE (text : string) (condition : expr bool) : stmt :=
  if_ (not_ condition)
      (seq (cout_endl ("[    ] Test Assert failed: " ++ text)) FAIL).

(** [#define ASSERT_FALSE(condition)]; [text] is [#condition]. *)
Definition ASSERT_FALSE (text : string) (condition : expr bool) : stmt :=
  if_ condition
      (seq (cout_endl ("[    ] Test Assert failed: " ++ text)) FAIL).

(** [#define UNIT(FUNCTION)]: the function the body defines.  It returns
    when the body executes [return;] or runs off its end. *)
Definition UNIT (body : stmt) : UnitFunction :=
  fun result g =>
    match body (result, g) with
    | None => None
    | Some (_, (result', g'), out) => Some (result', g', out)
    end.

(** ** Observing a run

    The notions the properties below are stated with: the catalog a
    process holds, the order of its keys, and the record of the calls the
    driver's loop makes. *)

(** The entries of the map [Instance()] returns. *)
Definition catalog (p : Process) : unit_map :=
  unitfunction_map_ (fst (Instance p)).

(** [std::less<std::string>] *)
Definition name_lt (a b : string) : Prop := String.compare a b = Lt.

(** Keys strictly increasing: the iteration order of a [std::map]. *)
Definition ordered (m : unit_map) : Prop :=
  StronglySorted name_lt (map fst m).

(** One call of a test function by the driver, once it has returned: the
    case name, the client state on entry, the [result] object after the
    call, the client state on exit and the lines the function wrote. *)
Record UnitRun : Type := {
  unit_name : string;
  unit_entry : G;
  unit_result : UnitFunctionResult;
  unit_exit : G;
  unit_output : list string
}.

(** [function] called on a default-constructed result in the entry state
    of [e] returns what [e] records. *)
Definition call_of (function : UnitFunction) (e : UnitRun) : Prop :=
  function UnitFunctionResult_default (unit_entry e)
  = Some (unit_result e, unit_exit e, unit_output e).

(** The calls made when the entries [units] are visited in turn from
    client state [g]; [None] when one of the calls does not return. *)
Fixpoint executions (units : unit_map) (g : G) : option (list UnitRun) :=
  match units with
  | [] => Some []
  | unit :: units' =>
      match snd unit UnitFunctionResult_default g with
      | None => None
      | Some (result, g', out) =>
          match executions units' g' with
          | None => None
          | Some tr =>
              Some ({| unit_name := fst unit; unit_entry := g;
                       unit_result := result; unit_exit := g';
                       unit_output := out |} :: tr)
          end
      end
  end.

(** The case recorded a failure: [!result.success]. *)
Definition failed (e : UnitRun) : bool := negb (success (unit_result e)).

(** The per-case outcome: name and recorded result. *)
Definition outcome (e : UnitRun) : string * bool :=
  (unit_name e, success (unit_result e)).

(** The client state after the calls [tr], started from [g]. *)
Definition final_globals (g : G) (tr : list UnitRun) : G :=
  last (map unit_exit tr) g.

(** The lines on [std::cout] for one case: the driver's two header
    lines, what the function wrote, and the driver's verdict. *)
Definition report (e : UnitRun) : list string :=
  [MICROUNIT_SEPARATOR; ("[    ] Test case '" ++ unit_name e ++ "'")%string]
  ++ unit_output e
  ++ [if success (unit_result e) then "[    ] Success"
      else "[!!!!] Failure"].

(** Each call starts in the client state the previous one left. *)
Fixpoint chained (g : G) (tr : list UnitRun) : Prop :=
  match tr with
  | [] => True
  | e :: tr' => unit_entry e = g /\ chained (unit_exit e) tr'
  end.

(** The statement never writes [*__microunit_testresult]. *)
Definition preserves_result (s : stmt) : Prop :=
  forall st k st' out, s st = Some (k, st', out) -> fst st' = fst st.

(** The function always returns, and the result it leaves depends on
    nothing but the result it was handed. *)
Definition result_determined (function : UnitFunction) : Prop :=
  exists h : UnitFunctionResult -> UnitFunctionResult,
    forall r g, exists g' out, function r g = Some (h r, g', out).

(** Two functions that return in the same situations and leave the same
    client state; they may differ in the result they record and in what
    they write. *)
Definition same_effect (f f' : UnitFunction) : Prop :=
  forall r g,
    option_map (fun x => snd (fst x)) (f r g)
    = option_map (fun x => snd (fst x)) (f' r g).

(** [prepend out r]: the completion [r] of the rest of a body, after
    [out] was written. *)
Definition prepend {A : Type} (out : list string)
  (r : option (A * State * list string)) : option (A * State * list string) :=
  match r with
  | None => None
  | Some (a, st, out') => Some (a, st, out ++ out')
  end.

(** [reaches s body st0 st out]: running [body] from [st0], control
    arrives at an occurrence of the statement [s] in state [st], [out]
    having been written on the way.  The occurrence may sit anywhere in a
    nest of sequences, [if]s and (as [for_ (S n) i b] unfolds to
    [seq (b i) (for_ n (i + 1) b)]) loops. *)
Inductive reaches (s : stmt) : stmt -> State -> State -> list string -> Prop :=
| reaches_here st :
    reaches s s st st []
| reaches_first body rest st0 st out :
    reaches s body st0 st out ->
    reaches s (seq body rest) st0 st out
| reaches_later before body st0 st1 out1 st out :
    before st0 = Some (Normal, st1, out1) ->
    reaches s body st1 st out ->
    reaches s (seq before body) st0 st (out1 ++ out)
| reaches_if_true c body st0 st1 out1 st out :
    c st0 = Some (true, st1, out1) ->
    reaches s body st1 st out ->
    reaches s (if_ c body) st0 st (out1 ++ out).

(** The case with body [body], entered in state [st0], stops by a
    [return;] with [success == false], client state [g'] and [lines]
    written; so does the function [UNIT] makes of it, and the driver's
    iteration that calls it records the failure. *)
Definition halts_failed (body : stmt) (st0 : State) (g' : G)
  (lines : list string) : Prop :=
  body st0 = Some (Return, ({| success := false |}, g'), lines)
  /\ UNIT body (fst st0) (snd st0)
     = Some ({| success := false |}, g', lines)
  /\ forall name units failures p,
       st0 = (UnitFunctionResult_default, globals p) ->
       Run_loop ((name, UNIT body) :: units) failures p
       = Run_loop units (failures ++ [name])
           {| instance := instance p; globals := g';
              cout := cout p
                      ++ [MICROUNIT_SEPARATOR;
                          ("[    ] Test case '" ++ name ++ "'")%string]
                      ++ lines ++ ["[!!!!] Failure"] |}.

(** Two runs over lists of entries that differ in the function of one
    entry, the one named [name] at position [n]: either none of them
    completes, or both do and their records are the same calls except
    for the one at that position, which is entered and left in the same
    client state in both. *)
Definition runs_agree_except (name : string) (n : nat)
  (o o' : option (list UnitRun)) : Prop :=
  match o, o' with
  | Some tr, Some tr' =>
      exists tr1 e e' tr2,
        tr = tr1 ++ e :: tr2 /\ tr' = tr1 ++ e' :: tr2
        /\ List.length tr1 = n
        /\ unit_name e = name /\ unit_name e' = name
        /\ unit_entry e = unit_entry e' /\ unit_exit e = unit_exit e'
  | None, None => True
  | _, _ => False
  end.

(** The loop run over two lists of entries that differ in the function
    [f] or [f'] of the one entry named [name]: either none of the two
    loops completes, or both do, and then they leave the same client
    state and differ only in whether [name] stands in [failures], between
    the same names before and after it, and in the report of that one
    case, between the same lines before and after it. *)
Definition loops_agree_except (name : string) (f f' : UnitFunction)
  (failures : list string) (p : Process)
  (o o' : option (list string * Process)) : Prop :=
  (o = None /\ o' = None)
  \/ exists (F1 F2 R1 R2 : list string) (e e' : UnitRun) (g' : G),
       unit_name e = name /\ unit_name e' = name
       /\ call_of f e /\ call_of f' e'
       /\ unit_entry e = unit_entry e' /\ unit_exit e = unit_exit e'
       /\ o = Some (failures ++ F1 ++ (if failed e then [name] else [])
                     ++ F2,
                    {| instance := instance p; globals := g';
                       cout := cout p ++ R1 ++ report e ++ R2 |})
       /\ o' = Some (failures ++ F1 ++ (if failed e' then [name] else [])
                      ++ F2,
                     {| instance := instance p; globals := g';
                        cout := cout p ++ R1 ++ report e' ++ R2 |}).

End Microunit.

Arguments UnitFunction : clear implicits.
Arguments unit_map : clear implicits.
Arguments UnitTester : clear implicits.
Arguments Process : clear implicits.
Arguments State : clear implicits.
Arguments M : clear implicits.
Arguments stmt : clear implicits.
Arguments expr : clear implicits.
Arguments UnitRun : clear implicits.

(** ** [sample.cpp] *)

Module Sample.

(** [int Double(int n)]; the tests call it with [0 <= n < 1000], where no
    [int] operation overflows. *)
Definition Double (n : Z) : Z := (2 * n)%Z.

(** [int DoubleFlawed(int n)] *)
Definition DoubleFlawed (n : Z) : Z :=
  if (n <? 100)%Z then (2 * n)%Z else (3 * n)%Z.

Definition Test_Two_Plus_Two : UnitFunction unit :=
  UNIT (ASSERT_TRUE "2 + 2 == 4" (ret (2 + 2 =? 4)%Z)).

Definition Test_Flawed_Two_Plus_Two : UnitFunction unit :=
  UNIT (ASSERT_TRUE "2 + 2 == 3" (ret (2 + 2 =? 3)%Z)).

Definition Test_Double : UnitFunction unit :=
  UNIT (for_ 1000 0
          (fun i => if_ (ret (negb (Double i =? 2 * i)%Z)) FAIL)).

Definition Test_Double_Flawed : UnitFunction unit :=
  UNIT (for_ 1000 0
          (fun i => if_ (ret (negb (DoubleFlawed i =? 2 * i)%Z)) FAIL)).

(** The four [REGISTER_UNIT] objects, in declaration order. *)
Definition registrations : list (string * UnitFunction unit) :=
  [ ("Test_Two_Plus_Two", Test_Two_Plus_Two);
    ("Test_Flawed_Two_Plus_Two", Test_Flawed_Two_Plus_Two);
    ("Test_Double", Test_Double);
    ("Test_Double_Flawed", Test_Double_Flawed) ].

(** The process before any static initializer ran. *)
Definition start : Process unit :=
  {| instance := None; globals := tt; cout := [] |}.

(** The process when [main] is entered. *)
Definition at_main : Process unit := static_init registrations start.

(** The calls [Run] makes from there. *)
Definition trace : list (UnitRun unit) :=
  Eval cbv in
    match executions (catalog at_main) (globals at_main) with
    | Some tr => tr
    | None => []
    end.

End Sample.

(** The loops of [Test_Double] and [Test_Double_Flawed] with the bound
    [n] in place of [1000]. *)
Module SampleLoops.

Definition Double_check (n : nat) : stmt unit :=
  for_ n 0
    (fun i => if_ (ret (negb (Sample.Double i =? 2 * i)%Z)) FAIL).

Definition DoubleFlawed_check (n : nat) : stmt unit :=
  for_ n 0
    (fun i => if_ (ret (negb (Sample.DoubleFlawed i =? 2 * i)%Z)) FAIL).

End SampleLoops.

(** Bodies that are a run of conditional asserts on side-effect-free
    conditions, as the bodies of [Test_Two_Plus_Two] and
    [Test_Flawed_Two_Plus_Two] are: each assert is given by the macro
    used ([true] for [ASSERT_TRUE], [false] for [ASSERT_FALSE]), the text
    of its condition and the value the condition has. *)
Section AssertRuns.

Context {G : Type}.

Fixpoint asserts (cs : list (bool * string * bool)) : stmt G :=
  match cs with
  | [] => skip
  | (expected, text, value) :: cs' =>
      seq (if expected then ASSERT_TRUE text (ret value)
           else ASSERT_FALSE text (ret value))
          (asserts cs')
  end.

(** The text of the first assert whose condition has the other value
    than the macro expects. *)
Fixpoint first_violated (cs : list (bool * string * bool)) : option string :=
  match cs with
  | [] => None
  | (expected, text, value) :: cs' =>
      if Bool.eqb expected value then first_violated cs' else Some text
  end.

End AssertRuns.

(** * Properties *)

(** Lists built with [++] and [::], brought to the right-nested form. *)
Ltac normalize_app :=
  repeat first [rewrite <- app_assoc | progress cbn [app]].

(** ** The order on names *)

Lemma name_lt_trans (a b c : string) :
  name_lt a b -> name_lt b c -> name_lt a c.
Proof.
  unfold name_lt. intros Hab Hbc.
  apply String_as_OT.cmp_lt in Hab. apply String_as_OT.cmp_lt in Hbc.
  apply String_as_OT.cmp_lt. eapply String_as_OT.lt_trans; eassumption.
Qed.

Lemma compare_refl (a : string) : String.compare a a = Eq.
Proof. apply String_as_OT.cmp_eq. reflexivity. Qed.

Lemma name_lt_irrefl (a : string) : ~ name_lt a a.
Proof. unfold name_lt. rewrite compare_refl. discriminate. Qed.

Lemma compare_Gt_lt (a b : string) :
  String.compare a b = Gt -> name_lt b a.
Proof.
  unfold name_lt. intros H. rewrite String.compare_antisym, H. reflexivity.
Qed.

Lemma name_lt_neqb (a b : string) : name_lt a b -> String.eqb b a = false.
Proof.
  intros H. apply String.eqb_neq. intros ->. exact (name_lt_irrefl _ H).
Qed.

Section Catalog.

Context {G : Type}.
Implicit Types (m : unit_map G) (p : Process G) (f : UnitFunction G).

(** ** [emplace] *)

Lemma emplace_names name f m x :
  In x (map fst (emplace name f m)) <-> x = name \/ In x (map fst m).
Proof.
  induction m as [|[k g] m IH]; simpl.
  - intuition.
  - destruct (String.compare name k) eqn:E; simpl.
    + apply String.compare_eq_iff in E. subst k. intuition.
    + intuition.
    + rewrite IH. intuition.
Qed.

Lemma emplace_ordered name f m : ordered m -> ordered (emplace name f m).
Proof.
  unfold ordered. induction m as [|[k g] m IH]; simpl; intros Hm.
  - constructor; constructor.
  - inversion Hm as [|? ? Hm' Hk]; subst.
    destruct (String.compare name k) eqn:E; simpl.
    + exact Hm.
    + constructor; [exact Hm|].
      constructor; [exact E|].
      eapply Forall_impl; [|exact Hk].
      intros x Hx. eapply name_lt_trans; eassumption.
    + constructor; [auto|].
      apply Forall_forall. intros x Hx.
      apply emplace_names in Hx. destruct Hx as [->|Hx].
      * apply compare_Gt_lt. exact E.
      * rewrite Forall_forall in Hk. auto.
Qed.

Lemma map_find_In name m :
  map_find name m <> None <-> In name (map fst m).
Proof.
  induction m as [|[k g] m IH]; simpl.
  - intuition.
  - destruct (String.eqb_spec name k) as [->|Hne].
    + split; [auto|discriminate].
    + rewrite IH. intuition congruence.
Qed.

Lemma emplace_present name f m :
  ordered m -> In name (map fst m) -> emplace name f m = m.
Proof.
  unfold ordered. induction m as [|[k g] m IH]; simpl; intros Hm Hin.
  - contradiction.
  - inversion Hm as [|? ? Hm' Hk]; subst.
    destruct (String.compare name k) eqn:E.
    + reflexivity.
    + exfalso. destruct Hin as [->|Hin].
      * rewrite compare_refl in E. discriminate.
      * rewrite Forall_forall in Hk.
        apply (name_lt_irrefl name).
        eapply name_lt_trans; [exact E|auto].
    + f_equal. apply IH; [exact Hm'|].
      destruct Hin as [->|Hin]; [|exact Hin].
      rewrite compare_refl in E. discriminate.
Qed.

Lemma map_find_emplace_other name f m x :
  x <> name -> map_find x (emplace name f m) = map_find x m.
Proof.
  intros Hne. induction m as [|[k g] m IH]; simpl.
  - apply String.eqb_neq in Hne. rewrite Hne. reflexivity.
  - destruct (String.compare name k) eqn:E; simpl.
    + reflexivity.
    + apply String.eqb_neq in Hne. rewrite Hne. reflexivity.
    + rewrite IH. reflexivity.
Qed.

Lemma map_find_emplace_absent name f m :
  map_find name m = None -> map_find name (emplace name f m) = Some f.
Proof.
  induction m as [|[k g] m IH]; simpl.
  - rewrite String.eqb_refl. reflexivity.
  - destruct (String.eqb_spec name k) as [->|Hne]; [discriminate|].
    intros Hnone. destruct (String.compare name k) eqn:E; simpl.
    + apply String.compare_eq_iff in E. contradiction.
    + rewrite String.eqb_refl. reflexivity.
    + apply String.eqb_neq in Hne. rewrite Hne. auto.
Qed.

(** A key bound in the map stays bound to the same function whatever is
    emplaced afterwards. *)
Lemma map_find_emplace_kept name f m x g :
  ordered m -> map_find x m = Some g ->
  map_find x (emplace name f m) = Some g.
Proof.
  intros Hm Hx. destruct (String.eqb_spec x name) as [->|Hne].
  - rewrite emplace_present; auto.
    apply map_find_In. congruence.
  - rewrite map_find_emplace_other; auto.
Qed.

Lemma map_count_ordered name m g :
  ordered m -> map_find name m = Some g ->
  filter (fun e => String.eqb name (fst e)) m = [(name, g)].
Proof.
  unfold ordered. induction m as [|[k h] m IH]; simpl; intros Hm Hfind.
  - discriminate.
  - inversion Hm as [|? ? Hm' Hk]; subst.
    destruct (String.eqb_spec name k) as [->|Hne].
    + injection Hfind as ->. f_equal.
      clear IH Hm Hm'. induction m as [|[k' h'] m IHm]; simpl; [reflexivity|].
      inversion Hk as [|? ? Hk1 Hk2]; subst. simpl in Hk1.
      rewrite (String.eqb_sym k k'), (name_lt_neqb _ _ Hk1). auto.
    + auto.
Qed.

(** ** Registration *)

Lemma catalog_RegisterFunction name f p :
  catalog (RegisterFunction name f p) = emplace name f (catalog p).
Proof.
  unfold catalog, RegisterFunction, Instance.
  destruct (instance p); reflexivity.
Qed.

Lemma RegisterFunction_frame name f p :
  globals (RegisterFunction name f p) = globals p
  /\ cout (RegisterFunction name f p) = cout p
  /\ instance (RegisterFunction name f p)
     = Some {| unitfunction_map_ := emplace name f (catalog p) |}.
Proof.
  unfold catalog, RegisterFunction, Instance.
  destruct (instance p); auto.
Qed.

Lemma static_init_app (l1 l2 : list (string * UnitFunction G)) p :
  static_init (l1 ++ l2) p = static_init l2 (static_init l1 p).
Proof. unfold static_init. apply fold_left_app. Qed.

Lemma static_init_ordered (l : list (string * UnitFunction G)) p :
  ordered (catalog p) -> ordered (catalog (static_init l p)).
Proof.
  revert p. induction l as [|[n f] l IH]; simpl; intros p Hp; [exact Hp|].
  apply IH. unfold Registrator. rewrite catalog_RegisterFunction.
  apply emplace_ordered. exact Hp.
Qed.

Lemma static_init_names (l : list (string * UnitFunction G)) p x :
  In x (map fst (catalog (static_init l p)))
  <-> In x (map fst l) \/ In x (map fst (catalog p)).
Proof.
  revert p. induction l as [|[n f] l IH]; simpl; intros p.
  - intuition.
  - rewrite IH. unfold Registrator. rewrite catalog_RegisterFunction.
    rewrite emplace_names. simpl. intuition.
Qed.

Lemma static_init_kept (l : list (string * UnitFunction G)) p x g :
  ordered (catalog p) -> map_find x (catalog p) = Some g ->
  map_find x (catalog (static_init l p)) = Some g.
Proof.
  revert p. induction l as [|[n f] l IH]; simpl; intros p Hp Hx; [exact Hx|].
  apply IH; unfold Registrator; rewrite catalog_RegisterFunction.
  - apply emplace_ordered. exact Hp.
  - apply map_find_emplace_kept; assumption.
Qed.

Lemma catalog_start (g : G) (out : list string) :
  catalog {| instance := None; globals := g; cout := out |} = [].
Proof. reflexivity. Qed.

Lemma ordered_nil : ordered (@nil (string * UnitFunction G)).
Proof. constructor. Qed.

End Catalog.

Section Driver.

Context {G : Type}.
Implicit Types (units : unit_map G) (p : Process G) (f : UnitFunction G)
  (tr : list (UnitRun G)).

(** ** The loop of [Run] and the record of its calls *)

Lemma last_cons {A : Type} (a d : A) (l : list A) :
  last (a :: l) d = last l a.
Proof.
  revert a d. induction l as [|b l IH]; intros a d; [reflexivity|].
  change (last (a :: b :: l) d) with (last (b :: l) d).
  rewrite !IH. reflexivity.
Qed.

Lemma Instance_spec p :
  instance (snd (Instance p)) = Some (fst (Instance p))
  /\ globals (snd (Instance p)) = globals p
  /\ cout (snd (Instance p)) = cout p.
Proof. unfold Instance. destruct (instance p) eqn:E; simpl; auto. Qed.

(** The loop returns exactly when every call does; it then appends the
    names of the failed calls to [failures], in call order, and leaves on
    [std::cout] the report of each call. *)
Lemma Run_loop_spec units failures p :
  Run_loop units failures p =
  match executions units (globals p) with
  | None => None
  | Some tr =>
      Some (failures ++ map unit_name (filter failed tr),
            {| instance := instance p;
               globals := final_globals (globals p) tr;
               cout := cout p ++ flat_map report tr |})
  end.
Proof.
  revert failures p. induction units as [|[n f] units IH]; intros failures p.
  - simpl. rewrite !app_nil_r. destruct p; reflexivity.
  - simpl. destruct (f UnitFunctionResult_default (globals p))
      as [[[r g'] out]|] eqn:Ef; [|reflexivity].
    rewrite IH. simpl.
    destruct (executions units g') as [tr|]; [|reflexivity].
    unfold final_globals. simpl map. rewrite last_cons.
    unfold failed at 2. simpl unit_result.
    f_equal. f_equal.
    + destruct (success r); simpl; [reflexivity|].
      rewrite <- app_assoc. reflexivity.
    + f_equal. unfold report at 2. simpl.
      repeat rewrite <- app_assoc. reflexivity.
Qed.

Lemma print_failures_spec (failures : list string) p :
  fold_left (fun q failure => endl ("> " ++ failure) q) failures p
  = {| instance := instance p; globals := globals p;
       cout := cout p ++ map (fun n => ("> " ++ n)%string) failures |}.
Proof.
  revert p. induction failures as [|n failures IH]; intros p; simpl.
  - rewrite app_nil_r. destruct p; reflexivity.
  - rewrite IH. simpl. rewrite <- app_assoc. reflexivity.
Qed.

Lemma Run_summary_frame (failures : list string) p :
  instance (snd (Run_summary failures p)) = instance p
  /\ globals (snd (Run_summary failures p)) = globals p.
Proof.
  unfold Run_summary. destruct failures; simpl; auto.
  rewrite print_failures_spec. simpl. auto.
Qed.

Lemma Run_summary_result (failures : list string) p :
  fst (Run_summary failures p) = true <-> failures = [].
Proof.
  unfold Run_summary. destruct failures; simpl; split; congruence.
Qed.

(** [Run] in terms of the calls it makes. *)
Lemma Run_spec p :
  Run p =
  match executions (catalog p) (globals p) with
  | None => None
  | Some tr =>
      Some (Run_summary (map unit_name (filter failed tr))
              {| instance := Some (fst (Instance p));
                 globals := final_globals (globals p) tr;
                 cout := cout p ++ flat_map report tr |})
  end.
Proof.
  unfold Run, catalog.
  destruct (Instance_spec p) as (Hi & Hg & Hc).
  destruct (Instance p) as [t q]. simpl in *.
  rewrite Run_loop_spec, Hg, Hi, Hc.
  destruct (executions (unitfunction_map_ t) (globals p)); reflexivity.
Qed.

(** [Run] returns exactly when every registered case returns. *)
Lemma Run_returns p :
  Run p = None <-> executions (catalog p) (globals p) = None.
Proof.
  rewrite Run_spec.
  destruct (executions (catalog p) (globals p)); split; congruence.
Qed.

(** The loop only reads the map: the catalog after [Run] is the catalog
    before. *)
Lemma Run_catalog p b p' : Run p = Some (b, p') -> catalog p' = catalog p.
Proof.
  rewrite Run_spec.
  destruct (executions (catalog p) (globals p)) as [tr|]; [|discriminate].
  intros H. injection H as H. apply (f_equal snd) in H. simpl in H.
  subst p'. unfold catalog at 1, Instance.
  match goal with |- context [Run_summary ?fs ?q] =>
    destruct (Run_summary_frame fs q) as [Hi _]; rewrite Hi end.
  reflexivity.
Qed.

Lemma filter_failed_nil tr :
  filter failed tr = []
  <-> forall e, In e tr -> success (unit_result e) = true.
Proof.
  induction tr as [|e tr IH]; simpl.
  - intuition.
  - unfold failed at 1. destruct (success (unit_result e)) eqn:E; simpl.
    + rewrite IH. split.
      * intros H e' [<-|He']; auto.
      * auto.
    + split; [discriminate|].
      intros H. specialize (H e (or_introl eq_refl)). congruence.
Qed.

Lemma executions_names units g tr :
  executions units g = Some tr -> map unit_name tr = map fst units.
Proof.
  revert g tr. induction units as [|[n f] units IH]; simpl; intros g tr H.
  - injection H as <-. reflexivity.
  - destruct (f UnitFunctionResult_default g) as [[[r g'] out]|];
      [|discriminate].
    destruct (executions units g') as [tr'|] eqn:E; [|discriminate].
    injection H as <-. simpl. f_equal. eauto.
Qed.

Lemma executions_chained units g tr :
  executions units g = Some tr -> chained g tr.
Proof.
  revert g tr. induction units as [|[n f] units IH]; simpl; intros g tr H.
  - injection H as <-. exact I.
  - destruct (f UnitFunctionResult_default g) as [[[r g'] out]|];
      [|discriminate].
    destruct (executions units g') as [tr'|] eqn:E; [|discriminate].
    injection H as <-. simpl. eauto.
Qed.

(** Every recorded call is the call of the function the entry of that
    position binds. *)
Lemma executions_calls units g tr :
  executions units g = Some tr ->
  Forall2 (fun u e => unit_name e = fst u /\ call_of (snd u) e) units tr.
Proof.
  revert g tr. induction units as [|[n f] units IH]; simpl; intros g tr H.
  - injection H as <-. constructor.
  - destruct (f UnitFunctionResult_default g) as [[[r g'] out]|] eqn:Ef;
      [|discriminate].
    destruct (executions units g') as [tr'|] eqn:E; [|discriminate].
    injection H as <-. constructor; [|eauto].
    split; [reflexivity|exact Ef].
Qed.

(** The summary only appends lines, and which lines depends on nothing
    but [failures]. *)
Lemma Run_summary_cout (failures : list string) :
  exists lines, forall p,
    cout (snd (Run_summary failures p)) = cout p ++ lines.
Proof.
  unfold Run_summary. destruct failures as [|n failures].
  - eexists. intros p. unfold endl. cbn [snd cout].
    normalize_app. reflexivity.
  - eexists. intros p. cbn [snd]. rewrite print_failures_spec.
    unfold endl. cbn [cout]. normalize_app. reflexivity.
Qed.

(** Records of calls made one after the other, each of the function
    bound at its position, are the record of the visit. *)
Lemma executions_intro units g tr :
  Forall2 (fun u e => unit_name e = fst u /\ call_of (snd u) e) units tr ->
  chained g tr ->
  executions units g = Some tr.
Proof.
  intros H. revert g.
  induction H as [|[n f] e units tr [Hn Hc] _ IH]; intros g Hch.
  - reflexivity.
  - destruct Hch as [He Hch]. simpl in *. unfold call_of in Hc. simpl in Hc.
    rewrite <- He, Hc, (IH _ Hch). destruct e. simpl in *. subst.
    reflexivity.
Qed.

(** The loop of [Run] on the catalog, in terms of the calls it makes. *)
Lemma Run_loop_catalog p failures :
  Run_loop (catalog p) failures (snd (Instance p)) =
  match executions (catalog p) (globals p) with
  | None => None
  | Some tr =>
      Some (failures ++ map unit_name (filter failed tr),
            {| instance := Some (fst (Instance p));
               globals := final_globals (globals p) tr;
               cout := cout p ++ flat_map report tr |})
  end.
Proof.
  rewrite Run_loop_spec.
  destruct (Instance_spec p) as (Hi & Hg & Hc). rewrite Hi, Hg, Hc.
  reflexivity.
Qed.

End Driver.

Section Bodies.

Context {G : Type}.
Implicit Types (s body rest : stmt G) (c condition : expr G bool)
  (st : State G) (p : Process G).

(** ** Statements and macros *)

Lemma seq_normal s1 s2 st st1 out1 :
  s1 st = Some (Normal, st1, out1) ->
  seq s1 s2 st = prepend out1 (s2 st1).
Proof.
  intros H. unfold seq, bind, prepend. rewrite H. reflexivity.
Qed.

Lemma seq_return s1 s2 st st1 out1 :
  s1 st = Some (Return, st1, out1) ->
  seq s1 s2 st = Some (Return, st1, out1).
Proof.
  intros H. unfold seq, bind, ret. rewrite H, app_nil_r. reflexivity.
Qed.

Lemma if_true c s st st1 out1 :
  c st = Some (true, st1, out1) -> if_ c s st = prepend out1 (s st1).
Proof.
  intros H. unfold if_, bind, prepend. rewrite H. reflexivity.
Qed.

Lemma if_false c s st st1 out1 :
  c st = Some (false, st1, out1) -> if_ c s st = Some (Normal, st1, out1).
Proof.
  intros H. unfold if_, bind, skip, ret. rewrite H, app_nil_r. reflexivity.
Qed.

Lemma not_spec c st b st1 out1 :
  c st = Some (b, st1, out1) -> not_ c st = Some (negb b, st1, out1).
Proof.
  intros H. unfold not_, bind, ret. rewrite H, app_nil_r. reflexivity.
Qed.

Lemma prepend_prepend {A : Type} (o1 o2 : list string)
  (r : option (A * State G * list string)) :
  prepend o1 (prepend o2 r) = prepend (o1 ++ o2) r.
Proof.
  destruct r as [[[a st] o]|]; simpl; [|reflexivity].
  rewrite app_assoc. reflexivity.
Qed.

Lemma prepend_nil {A : Type} (r : option (A * State G * list string)) :
  prepend [] r = r.
Proof. destruct r as [[[a st] o]|]; reflexivity. Qed.

Lemma FAIL_spec st :
  FAIL st
  = Some (Return, ({| success := false |}, snd st), ["[    ] Test failed "]).
Proof. reflexivity. Qed.

Lemma PASS_spec st :
  PASS st = Some (Return, ({| success := true |}, snd st), []).
Proof. reflexivity. Qed.

(** A statement that returns where control arrives ends the body there. *)
Lemma reaches_return s body st0 st out st' out' :
  reaches s body st0 st out ->
  s st = Some (Return, st', out') ->
  body st0 = Some (Return, st', out ++ out').
Proof.
  intros Hr Hs. induction Hr as
    [st | body rest st0 st out _ IH
     | before body st0 st1 out1 st out Hb _ IH
     | c body st0 st1 out1 st out Hc _ IH].
  - exact Hs.
  - apply seq_return. auto.
  - rewrite (seq_normal _ _ _ _ _ Hb), (IH Hs). simpl.
    rewrite app_assoc. reflexivity.
  - rewrite (if_true _ _ _ _ _ Hc), (IH Hs). simpl.
    rewrite app_assoc. reflexivity.
Qed.

(** Control arrives at [s] in the current iteration of a loop, or in a
    later one when the current iteration completes normally. *)
Lemma reaches_for_now s n i (b : Z -> stmt G) st0 st out :
  reaches s (b i) st0 st out -> reaches s (for_ (S n) i b) st0 st out.
Proof. intros H. exact (reaches_first s _ _ _ _ _ H). Qed.

Lemma reaches_for_next s n i (b : Z -> stmt G) st0 st1 st :
  b i st0 = Some (Normal, st1, []) ->
  reaches s (for_ n (i + 1)%Z b) st1 st [] ->
  reaches s (for_ (S n) i b) st0 st [].
Proof. intros H H'. exact (reaches_later s _ _ _ _ _ _ _ H H'). Qed.

(** One iteration of the driver's loop. *)
Lemma Run_loop_step name (f : UnitFunction G) units failures p r g' out :
  f UnitFunctionResult_default (globals p) = Some (r, g', out) ->
  Run_loop ((name, f) :: units) failures p
  = Run_loop units
      (if negb (success r) then failures ++ [name] else failures)
      {| instance := instance p; globals := g';
         cout := cout p
                 ++ [MICROUNIT_SEPARATOR;
                     ("[    ] Test case '" ++ name ++ "'")%string]
                 ++ out
                 ++ [if success r then "[    ] Success"
                     else "[!!!!] Failure"] |}.
Proof.
  intros H. cbn [Run_loop]. unfold endl. cbn [fst snd globals instance cout].
  rewrite H. f_equal. f_equal. rewrite <- !app_assoc. reflexivity.
Qed.

Lemma halts_failed_intro body st0 g' lines :
  body st0 = Some (Return, ({| success := false |}, g'), lines) ->
  halts_failed body st0 g' lines.
Proof.
  intros H. unfold halts_failed.
  assert (HU : UNIT body (fst st0) (snd st0)
               = Some ({| success := false |}, g', lines)).
  { unfold UNIT. destruct st0 as [r0 g0]. simpl. rewrite H. reflexivity. }
  split; [exact H|]. split; [exact HU|].
  intros name units failures p ->. simpl in HU.
  rewrite (Run_loop_step _ _ _ _ _ _ _ _ HU). reflexivity.
Qed.

Lemma ASSERT_TRUE_violated text condition st st1 out1 :
  condition st = Some (false, st1, out1) ->
  ASSERT_TRUE text condition st
  = Some (Return, ({| success := false |}, snd st1),
          out1 ++ [("[    ] Test Assert failed: " ++ text)%string;
                   "[    ] Test failed "]).
Proof.
  intros H. unfold ASSERT_TRUE.
  rewrite (if_true _ _ _ _ _ (not_spec _ _ _ _ _ H)). reflexivity.
Qed.

Lemma ASSERT_FALSE_violated text condition st st1 out1 :
  condition st = Some (true, st1, out1) ->
  ASSERT_FALSE text condition st
  = Some (Return, ({| success := false |}, snd st1),
          out1 ++ [("[    ] Test Assert failed: " ++ text)%string;
                   "[    ] Test failed "]).
Proof.
  intros H. unfold ASSERT_FALSE.
  rewrite (if_true _ _ _ _ _ H). reflexivity.
Qed.

Lemma ASSERT_TRUE_holds text condition st st1 out1 :
  condition st = Some (true, st1, out1) ->
  ASSERT_TRUE text condition st = Some (Normal, st1, out1).
Proof.
  intros H. unfold ASSERT_TRUE.
  apply if_false. apply (not_spec _ _ _ _ _ H).
Qed.

Lemma ASSERT_FALSE_holds text condition st st1 out1 :
  condition st = Some (false, st1, out1) ->
  ASSERT_FALSE text condition st = Some (Normal, st1, out1).
Proof. intros H. unfold ASSERT_FALSE. apply if_false. exact H. Qed.

End Bodies.

(** ** The driver's result and report *)

Section DriverClaims.

Context {G : Type}.
Implicit Types (units : unit_map G) (p : Process G) (f : UnitFunction G)
  (tr : list (UnitRun G)).

(** C1.  When every registered case returns, leaving the record [tr] of
    the calls made, [Run] returns, and it returns [true] exactly when no
    executed case recorded a failure.  The local [failures] vector holds,
    in call order, exactly the names of the cases that recorded one; and
    when K > 0 cases did, [Run] returns [false] and the summary printed
    after the per-case reports is the two separators, the line
    "[!!!!] Failed K test cases:", one line "> name" for each of those K
    cases and a closing separator. *)
Theorem Run_result_and_failure_list p tr :
  executions (catalog p) (globals p) = Some tr ->
  exists b p',
    Run p = Some (b, p')
    /\ (b = true <-> forall e, In e tr -> success (unit_result e) = true)
    /\ option_map fst (Run_loop (catalog p) [] (snd (Instance p)))
       = Some (map unit_name (filter failed tr))
    /\ forall K, 0 < K -> List.length (filter failed tr) = K ->
         b = false
         /\ List.length (map unit_name (filter failed tr)) = K
         /\ cout p'
            = cout p ++ flat_map report tr
              ++ [MICROUNIT_SEPARATOR; MICROUNIT_SEPARATOR;
                  ("[!!!!] Failed " ++ decimal K ++ " test cases:")%string]
              ++ map (fun e => ("> " ++ unit_name e)%string)
                   (filter failed tr)
              ++ [MICROUNIT_SEPARATOR].
Proof.
  intros Htr.
  pose proof (Run_spec p) as HR. rewrite Htr in HR.
  set (fs := map unit_name (filter failed tr)) in *.
  set (q := {| instance := Some (fst (Instance p));
               globals := final_globals (globals p) tr;
               cout := cout p ++ flat_map report tr |}) in *.
  exists (fst (Run_summary fs q)), (snd (Run_summary fs q)).
  split; [rewrite HR, <- surjective_pairing; reflexivity|].
  split.
  { rewrite Run_summary_result, <- filter_failed_nil. unfold fs.
    destruct (filter failed tr); simpl; split; congruence. }
  split.
  { rewrite Run_loop_spec.
    destruct (Instance_spec p) as (_ & Hg & _). rewrite Hg, Htr.
    reflexivity. }
  intros K HK Hlen. unfold fs. rewrite length_map.
  split; [|split; [exact Hlen|]].
  - destruct (filter failed tr); simpl in *; [lia|reflexivity].
  - unfold Run_summary.
    destruct (filter failed tr) as [|e l] eqn:E; [simpl in Hlen; lia|].
    cbn [map snd]. rewrite print_failures_spec. unfold endl.
    cbn [cout instance globals]. unfold q. cbn [cout].
    rewrite <- Hlen. cbn [List.length map].
    rewrite length_map, map_map.
    repeat rewrite <- app_assoc. reflexivity.
Qed.

(** C10.  With an empty catalog [Run] returns [true]; all it writes is
    the two separators, "[    ] All tests passed" and a separator. *)
Theorem Run_empty_catalog p :
  catalog p = [] ->
  exists p',
    Run p = Some (true, p')
    /\ cout p'
       = cout p ++ [MICROUNIT_SEPARATOR; MICROUNIT_SEPARATOR;
                    "[    ] All tests passed"; MICROUNIT_SEPARATOR]
    /\ globals p' = globals p.
Proof.
  intros Hc. rewrite Run_spec, Hc. cbn [executions filter map].
  eexists. split; [reflexivity|].
  unfold Run_summary, endl. cbn [snd cout globals flat_map].
  rewrite app_nil_r. repeat rewrite <- app_assoc. split; reflexivity.
Qed.

End DriverClaims.

(** ** Registration and iteration order *)

Section CatalogClaims.

Context {G : Type}.
Implicit Types (units : unit_map G) (p : Process G) (f : UnitFunction G)
  (tr : list (UnitRun G)) (l : list (string * UnitFunction G)).

Lemma RegisterFunction_present name f p :
  instance p <> None -> ordered (catalog p) ->
  In name (map fst (catalog p)) ->
  RegisterFunction name f p = p.
Proof.
  unfold catalog, RegisterFunction, Instance.
  destruct p as [[[m]|] g out]; simpl; [|congruence].
  intros _ Hm Hin. rewrite emplace_present; auto.
Qed.

Lemma static_init_instance l p :
  instance p <> None -> instance (static_init l p) <> None.
Proof.
  revert p. induction l as [|[n f] l IH]; simpl; intros p Hp; [exact Hp|].
  apply IH. unfold Registrator.
  destruct (RegisterFunction_frame n f p) as (_ & _ & ->). discriminate.
Qed.

Lemma static_init_absent l p x :
  ~ In x (map fst l) -> map_find x (catalog p) = None ->
  map_find x (catalog (static_init l p)) = None.
Proof.
  intros Hl Hp.
  destruct (map_find x (catalog (static_init l p))) eqn:E; [|reflexivity].
  exfalso. assert (H : In x (map fst (catalog (static_init l p)))).
  { apply map_find_In. congruence. }
  apply static_init_names in H. destruct H as [H|H]; [auto|].
  apply map_find_In in H. auto.
Qed.

(** A run calls, for a name the catalog binds once, the bound function. *)
Lemma executions_bound units g tr name f :
  executions units g = Some tr ->
  filter (fun u => String.eqb name (fst u)) units = [(name, f)] ->
  exists e,
    filter (fun e => String.eqb name (unit_name e)) tr = [e] /\ call_of f e.
Proof.
  intros Htr. apply executions_calls in Htr.
  induction Htr as [|u e units tr [Hn Hcall] Htr IH]; simpl; [discriminate|].
  rewrite Hn. destruct (String.eqb name (fst u)).
  - intros H. injection H as Hu Hrest. exists e. split.
    + f_equal. clear IH. revert Hrest.
      assert (Hnames : map unit_name tr = map fst units).
      { clear -Htr. induction Htr as [|? ? ? ? [? _] _ IH]; simpl;
          congruence. }
      clear -Hnames. revert units Hnames.
      induction tr as [|e' tr IH]; intros [|u' units] Hn;
        simpl in *; try discriminate; [reflexivity|].
      injection Hn as Hn1 Hn2. rewrite Hn1.
      destruct (String.eqb name (fst u')); [discriminate|eauto].
    + rewrite Hu in Hcall. exact Hcall.
  - auto.
Qed.

(** Two strictly increasing lists with the same elements are equal. *)
Lemma sorted_names_unique (l1 l2 : list string) :
  StronglySorted name_lt l1 -> StronglySorted name_lt l2 ->
  (forall x, In x l1 <-> In x l2) -> l1 = l2.
Proof.
  intros H1. revert l2. induction H1 as [|a l1 H1 IH Ha]; intros l2 H2 Hin.
  - destruct l2 as [|b l2]; [reflexivity|].
    exfalso. apply (Hin b). left. reflexivity.
  - destruct H2 as [|b l2 H2 Hb].
    { exfalso. apply (Hin a). left. reflexivity. }
    rewrite Forall_forall in Ha, Hb.
    assert (a = b) as <-.
    { destruct (proj1 (Hin a) (or_introl eq_refl)) as [E|Ea]; [auto|].
      destruct (proj2 (Hin b) (or_introl eq_refl)) as [E|Eb]; [auto|].
      exfalso. apply (name_lt_irrefl a).
      eapply name_lt_trans; [apply Ha, Eb|apply Hb, Ea]. }
    f_equal. apply IH; [exact H2|].
    intros x. split; intros Hx.
    + destruct (proj1 (Hin x) (or_intror Hx)) as [E|Hx']; [|exact Hx'].
      subst x. exfalso. exact (name_lt_irrefl _ (Ha _ Hx)).
    + destruct (proj2 (Hin x) (or_intror Hx)) as [E|Hx']; [|exact Hx'].
      subst x. exfalso. exact (name_lt_irrefl _ (Hb _ Hx)).
Qed.

(** C2.  Take any sequence of registrations since program start in which
    [name] is registered first with [f1] and later again with [f2].  The
    second registration changes nothing (the process state after it is
    the state before it, so no error reaches the caller, whose call
    returns nothing), the final catalog is the one obtained without it,
    it holds exactly one entry for [name], bound to [f1], and a run of it
    makes exactly one call for [name], the call of [f1]: the loop of
    [Run] writes the report of that call of [f1] (header, the lines [f1]
    wrote, verdict), collects [name] in [failures] exactly when [f1] left
    [success == false], and [Run] then returns [false]. *)
Theorem duplicate_registration_keeps_first
  (g : G) (out : list string) (before between after : list (string * UnitFunction G))
  (name : string) (f1 f2 : UnitFunction G) :
  ~ In name (map fst before) ->
  let start := {| instance := None; globals := g; cout := out |} in
  let p1 := static_init (before ++ (name, f1) :: between) start in
  let p :=
    static_init (before ++ (name, f1) :: between ++ (name, f2) :: after)
      start in
  RegisterFunction name f2 p1 = p1
  /\ p = static_init (before ++ (name, f1) :: between ++ after) start
  /\ filter (fun u => String.eqb name (fst u)) (catalog p) = [(name, f1)]
  /\ map_count name (catalog p) = 1
  /\ map_find name (catalog p) = Some f1
  /\ (Run p = Run (static_init (before ++ (name, f1) :: between ++ after)
                     start))
  /\ forall tr,
       executions (catalog p) (globals p) = Some tr ->
       exists e,
         filter (fun e => String.eqb name (unit_name e)) tr = [e]
         /\ call_of f1 e
         /\ exists failures q b p',
              Run_loop (catalog p) [] (snd (Instance p)) = Some (failures, q)
              /\ (In name failures <-> success (unit_result e) = false)
              /\ (exists R1 R2, cout q = cout p ++ R1 ++ report e ++ R2)
              /\ Run p = Some (b, p')
              /\ (success (unit_result e) = false -> b = false)
              /\ (exists R1 R2, cout p' = cout p ++ R1 ++ report e ++ R2).
Proof.
  intros Hfirst start p1 p.
  set (p0 := static_init before start).
  assert (Hp0 : ordered (catalog p0)).
  { apply static_init_ordered. apply ordered_nil. }
  assert (Hnone : map_find name (catalog p0) = None).
  { apply static_init_absent; [exact Hfirst|reflexivity]. }
  set (pf := RegisterFunction name f1 p0).
  assert (Hpf : ordered (catalog pf)).
  { unfold pf. rewrite catalog_RegisterFunction.
    apply emplace_ordered, Hp0. }
  assert (Hpf1 : map_find name (catalog pf) = Some f1).
  { unfold pf. rewrite catalog_RegisterFunction.
    apply map_find_emplace_absent, Hnone. }
  assert (Hpfi : instance pf <> None).
  { unfold pf. destruct (RegisterFunction_frame name f1 p0) as (_ & _ & ->).
    discriminate. }
  assert (E1 : p1 = static_init between pf).
  { unfold p1. rewrite static_init_app. reflexivity. }
  assert (Hp1 : ordered (catalog p1)).
  { rewrite E1. apply static_init_ordered, Hpf. }
  assert (Hp1f : map_find name (catalog p1) = Some f1).
  { rewrite E1. apply static_init_kept; assumption. }
  assert (Hnoop : RegisterFunction name f2 p1 = p1).
  { apply RegisterFunction_present.
    - rewrite E1. apply static_init_instance, Hpfi.
    - exact Hp1.
    - apply map_find_In. congruence. }
  assert (Ep : p = static_init (before ++ (name, f1) :: between ++ after)
                     start).
  { unfold p.
    change (before ++ (name, f1) :: between ++ (name, f2) :: after)
      with (before ++ ((name, f1) :: between) ++ (name, f2) :: after).
    change (before ++ (name, f1) :: between ++ after)
      with (before ++ ((name, f1) :: between) ++ after).
    rewrite !app_assoc, !(static_init_app (before ++ _)).
    fold p1. simpl. unfold Registrator. rewrite Hnoop. reflexivity. }
  assert (Epa : p = static_init after p1).
  { rewrite Ep.
    change (before ++ (name, f1) :: between ++ after)
      with (before ++ ((name, f1) :: between) ++ after).
    rewrite app_assoc, static_init_app. reflexivity. }
  assert (Hp : ordered (catalog p)).
  { rewrite Epa. apply static_init_ordered, Hp1. }
  assert (Hpf' : map_find name (catalog p) = Some f1).
  { rewrite Epa. apply static_init_kept; assumption. }
  assert (Hfilter : filter (fun u => String.eqb name (fst u)) (catalog p)
                    = [(name, f1)]).
  { apply map_count_ordered; assumption. }
  split; [exact Hnoop|]. split; [exact Ep|]. split; [exact Hfilter|].
  split; [unfold map_count; rewrite Hfilter; reflexivity|].
  split; [exact Hpf'|]. split; [rewrite Ep; reflexivity|].
  intros tr Htr.
  destruct (executions_bound _ _ _ _ _ Htr Hfilter) as (e & He & Hcall).
  exists e. split; [exact He|]. split; [exact Hcall|].
  assert (Hin : In e tr /\ unit_name e = name).
  { assert (H : In e (filter (fun e => String.eqb name (unit_name e)) tr))
      by (rewrite He; left; reflexivity).
    apply filter_In in H. destruct H as [H1 H2].
    apply String.eqb_eq in H2. auto. }
  destruct Hin as [Hin Hname].
  assert (Honly : forall e', In e' tr -> unit_name e' = name -> e' = e).
  { intros e' He' Hn'.
    assert (H : In e' (filter (fun e => String.eqb name (unit_name e)) tr)).
    { apply filter_In. split; [exact He'|]. apply String.eqb_eq. auto. }
    rewrite He in H. destruct H as [H|[]]. auto. }
  assert (Hfs : In name (map unit_name (filter failed tr))
                <-> success (unit_result e) = false).
  { rewrite in_map_iff. split.
    - intros (e' & Hn' & Hf'). apply filter_In in Hf'.
      destruct Hf' as [He' Hf']. rewrite (Honly _ He' Hn') in Hf'.
      unfold failed in Hf'. destruct (success (unit_result e));
        [discriminate|reflexivity].
    - intros Hf. exists e. split; [exact Hname|].
      apply filter_In. split; [exact Hin|]. unfold failed. rewrite Hf.
      reflexivity. }
  destruct (in_split _ _ Hin) as (tr1 & tr2 & Hsplit).
  assert (Hrep : flat_map report tr
                 = flat_map report tr1 ++ report e ++ flat_map report tr2).
  { rewrite Hsplit, flat_map_app. reflexivity. }
  pose proof (Run_loop_catalog p []) as HL. rewrite Htr in HL.
  pose proof (Run_spec p) as HR. rewrite Htr in HR.
  do 2 eexists.
  exists (fst (Run_summary (map unit_name (filter failed tr))
                 {| instance := Some (fst (Instance p));
                    globals := final_globals (globals p) tr;
                    cout := cout p ++ flat_map report tr |})).
  eexists.
  split; [exact HL|]. split; [exact Hfs|]. split.
  { cbn [cout]. exists (flat_map report tr1), (flat_map report tr2).
    rewrite Hrep. reflexivity. }
  split; [rewrite HR; apply f_equal, surjective_pairing|]. split.
  { intros Hf. apply Hfs in Hf. unfold Run_summary.
    destruct (map unit_name (filter failed tr)); [contradiction|].
    reflexivity. }
  destruct (@Run_summary_cout G (map unit_name (filter failed tr)))
    as (lines & Hlines).
  rewrite Hlines. cbn [cout].
  exists (flat_map report tr1), (flat_map report tr2 ++ lines).
  rewrite Hrep. normalize_app. reflexivity.
Qed.

(** C6.  Whatever the order of the registrations made since program
    start, the catalog lists the registered names in strictly increasing
    lexicographic order, and a run that completes called the cases in
    exactly that order, one after the other: each call is the call of the
    function bound at that position, entered in the client state the
    previous call left.  The order depends on the set of registered names
    only, not on the order of registration.  Of [Run] itself: whenever
    the functions bound in the catalog, called in increasing name order,
    one after the other, each on a default-constructed result and in the
    client state the previous one left, return the records [tr], the
    loop of [Run] returns, having written the reports of exactly these
    calls in that order and collected the names of the failed ones in
    that order, and [Run] returns the summary of that. *)
Theorem Run_visits_in_name_order
  (g : G) (out : list string) (registrations : list (string * UnitFunction G)) :
  let p :=
    static_init registrations
      {| instance := None; globals := g; cout := out |} in
  StronglySorted name_lt (map fst (catalog p))
  /\ (forall n, In n (map fst (catalog p)) <-> In n (map fst registrations))
  /\ (forall tr,
        executions (catalog p) (globals p) = Some tr ->
        map unit_name tr = map fst (catalog p)
        /\ chained (globals p) tr
        /\ Forall2 (fun u e => unit_name e = fst u /\ call_of (snd u) e)
             (catalog p) tr)
  /\ (forall g' out' (registrations' : list (string * UnitFunction G)),
       (forall n, In n (map fst registrations')
                  <-> In n (map fst registrations)) ->
       map fst (catalog (static_init registrations'
                           {| instance := None; globals := g';
                              cout := out' |}))
       = map fst (catalog p))
  /\ forall tr,
       Forall2 (fun u e => unit_name e = fst u /\ call_of (snd u) e)
         (catalog p) tr ->
       chained (globals p) tr ->
       StronglySorted name_lt (map unit_name tr)
       /\ (forall failures,
             Run_loop (catalog p) failures (snd (Instance p))
             = Some (failures ++ map unit_name (filter failed tr),
                     {| instance := Some (fst (Instance p));
                        globals := final_globals (globals p) tr;
                        cout := cout p ++ flat_map report tr |}))
       /\ Run p
          = Some (Run_summary (map unit_name (filter failed tr))
                    {| instance := Some (fst (Instance p));
                       globals := final_globals (globals p) tr;
                       cout := cout p ++ flat_map report tr |}).
Proof.
  intros p.
  assert (Hsorted : forall g0 out0 (l : list (string * UnitFunction G)),
             ordered (catalog (static_init l
               {| instance := None; globals := g0; cout := out0 |}))).
  { intros. apply static_init_ordered, ordered_nil. }
  assert (Hnames : forall g0 out0 (l : list (string * UnitFunction G)) n,
             In n (map fst (catalog (static_init l
               {| instance := None; globals := g0; cout := out0 |})))
             <-> In n (map fst l)).
  { intros. rewrite static_init_names. simpl. intuition. }
  split; [apply Hsorted|]. split; [apply Hnames|]. split.
  - intros tr Htr. split; [eapply executions_names; eassumption|].
    split; [eapply executions_chained; eassumption|].
    eapply executions_calls; eassumption.
  - split.
    + intros g' out' registrations' Hsame.
      apply sorted_names_unique; [apply Hsorted|apply Hsorted|].
      intros x. unfold p. rewrite !Hnames. apply Hsame.
    + intros tr Hcalls Hch.
      pose proof (executions_intro _ _ _ Hcalls Hch) as Htr.
      split.
      * rewrite (executions_names _ _ _ Htr). apply Hsorted.
      * split.
        -- intros failures. rewrite Run_loop_catalog, Htr. reflexivity.
        -- rewrite Run_spec, Htr. reflexivity.
Qed.

End CatalogClaims.

(** ** The result protocol of a test case *)

Section BodyClaims.

Context {G : Type}.
Implicit Types (s body rest : stmt G) (condition : expr G bool)
  (st : State G) (p : Process G) (units : unit_map G).

(** C3.  Let control arrive, in a case body, at a conditional assert
    whose condition then evaluates against the expected polarity
    ([ASSERT_TRUE] on false, [ASSERT_FALSE] on true).  The body completes
    right there by [return;] whatever follows the assert: its final state
    is the one the evaluation of the condition left, with [success] set to
    [false], and nothing is written after the two diagnostics.  The
    function [UNIT] defines leaves [success == false], and the driver's
    iteration for the case adds its name to [failures]. *)
Theorem violated_assert_halts_and_fails
  (text : string) condition body st0 st1 st2 (out0 out1 : list string) :
  (reaches (ASSERT_TRUE text condition) body st0 st1 out0 ->
   condition st1 = Some (false, st2, out1) ->
   halts_failed body st0 (snd st2)
     (out0 ++ out1 ++ [("[    ] Test Assert failed: " ++ text)%string;
                       "[    ] Test failed "]))
  /\ (reaches (ASSERT_FALSE text condition) body st0 st1 out0 ->
      condition st1 = Some (true, st2, out1) ->
      halts_failed body st0 (snd st2)
        (out0 ++ out1 ++ [("[    ] Test Assert failed: " ++ text)%string;
                          "[    ] Test failed "])).
Proof.
  split; intros Hr Hc; apply halts_failed_intro.
  - rewrite (reaches_return _ _ _ _ _ _ _ Hr
               (ASSERT_TRUE_violated text _ _ _ _ Hc)).
    reflexivity.
  - rewrite (reaches_return _ _ _ _ _ _ _ Hr
               (ASSERT_FALSE_violated text _ _ _ _ Hc)).
    reflexivity.
Qed.

(** C4.  Let control arrive, in a case body, at [FAIL()], whatever ran
    before (assertions that held included) and whatever [success] holds
    at that point.  The body completes right there by [return;] with
    [success == false], the client state untouched and only the line
    "[    ] Test failed " added; the driver's iteration for the case adds
    its name to [failures]. *)
Theorem FAIL_fails_and_returns body st0 st1 (out0 : list string) :
  reaches FAIL body st0 st1 out0 ->
  halts_failed body st0 (snd st1) (out0 ++ ["[    ] Test failed "]).
Proof.
  intros Hr. apply halts_failed_intro.
  apply (reaches_return _ _ _ _ _ _ _ Hr (FAIL_spec st1)).
Qed.

(** C5.  A default-constructed [UnitFunctionResult] has
    [success == true].  A case whose body never writes the result leaves,
    when it returns, the result it was handed; every call of it the
    driver records has [success == true], and the driver's iteration for
    it, at any point of the loop and whatever was recorded before, prints
    "[    ] Success" and leaves [failures] as it was: the result the
    driver handed over had [success == true]. *)
Theorem untouched_result_is_pass body :
  preserves_result body ->
  success UnitFunctionResult_default = true
  /\ (forall r g r' g' out,
        UNIT body r g = Some (r', g', out) -> r' = r)
  /\ (forall (e : UnitRun G), call_of (UNIT body) e ->
        success (unit_result e) = true)
  /\ forall name units failures p k st' out,
       body (UnitFunctionResult_default, globals p) = Some (k, st', out) ->
       Run_loop ((name, UNIT body) :: units) failures p
       = Run_loop units failures
           {| instance := instance p; globals := snd st';
              cout := cout p
                      ++ [MICROUNIT_SEPARATOR;
                          ("[    ] Test case '" ++ name ++ "'")%string]
                      ++ out ++ ["[    ] Success"] |}.
Proof.
  intros Hpres.
  assert (HU : forall r g r' g' out,
             UNIT body r g = Some (r', g', out) -> r' = r).
  { intros r g r' g' out. unfold UNIT.
    destruct (body (r, g)) as [[[k [r1 g1]] o]|] eqn:E; [|discriminate].
    intros H. injection H as <- <- <-.
    apply (Hpres _ _ _ _ E). }
  split; [reflexivity|]. split; [exact HU|]. split.
  - intros e He. unfold call_of in He. apply HU in He. rewrite He.
    reflexivity.
  - intros name units failures p k [r' g'] out Hb.
    pose proof (Hpres _ _ _ _ Hb) as Hr. simpl in Hr. subst r'.
    assert (Hcall : UNIT body UnitFunctionResult_default (globals p)
                    = Some (UnitFunctionResult_default, g', out)).
    { unfold UNIT. rewrite Hb. reflexivity. }
    rewrite (Run_loop_step _ _ _ _ _ _ _ _ Hcall). reflexivity.
Qed.

(** C7.  A conditional assert whose condition evaluates according to the
    expected polarity ([ASSERT_TRUE] on true, [ASSERT_FALSE] on false)
    completes normally, in exactly the state and with exactly the output
    the evaluation of the condition left: it writes neither a diagnostic
    nor the result, and the rest of the body runs from there.  For a
    condition without side effects the assert is the empty statement. *)
Theorem held_assert_continues
  (text : string) condition st st1 (out1 : list string) :
  (condition st = Some (true, st1, out1) ->
   ASSERT_TRUE text condition st = Some (Normal, st1, out1)
   /\ (forall rest,
         seq (ASSERT_TRUE text condition) rest st = prepend out1 (rest st1))
   /\ (st1 = st -> out1 = [] ->
       forall rest, seq (ASSERT_TRUE text condition) rest st = rest st))
  /\ (condition st = Some (false, st1, out1) ->
      ASSERT_FALSE text condition st = Some (Normal, st1, out1)
      /\ (forall rest,
            seq (ASSERT_FALSE text condition) rest st
            = prepend out1 (rest st1))
      /\ (st1 = st -> out1 = [] ->
          forall rest, seq (ASSERT_FALSE text condition) rest st = rest st)).
Proof.
  split; intros Hc.
  - pose proof (ASSERT_TRUE_holds text _ _ _ _ Hc) as HA.
    split; [exact HA|]. split.
    + intros rest. apply seq_normal, HA.
    + intros -> -> rest. rewrite (seq_normal _ _ _ _ _ HA).
      apply prepend_nil.
  - pose proof (ASSERT_FALSE_holds text _ _ _ _ Hc) as HA.
    split; [exact HA|]. split.
    + intros rest. apply seq_normal, HA.
    + intros -> -> rest. rewrite (seq_normal _ _ _ _ _ HA).
      apply prepend_nil.
Qed.

End BodyClaims.

(** ** Repeated runs and isolation of cases *)

Section RunClaims.

Context {G : Type}.
Implicit Types (units : unit_map G) (p q : Process G) (f : UnitFunction G)
  (tr : list (UnitRun G)).

Lemma executions_determined units :
  Forall (fun u => result_determined (snd u)) units ->
  forall g1 g2, exists tr1 tr2,
    executions units g1 = Some tr1
    /\ executions units g2 = Some tr2
    /\ map outcome tr1 = map outcome tr2.
Proof.
  induction 1 as [|[n f] units [h Hf] _ IH]; intros g1 g2.
  - exists [], []. auto.
  - simpl in *.
    destruct (Hf UnitFunctionResult_default g1) as (g1' & o1 & E1).
    destruct (Hf UnitFunctionResult_default g2) as (g2' & o2 & E2).
    destruct (IH g1' g2') as (tr1 & tr2 & H1 & H2 & Ho).
    rewrite E1, E2, H1, H2. do 2 eexists.
    split; [reflexivity|]. split; [reflexivity|].
    simpl. unfold outcome at 1 3. simpl. congruence.
Qed.

Lemma failed_names_outcome tr1 tr2 :
  map outcome tr1 = map outcome tr2 ->
  map unit_name (filter failed tr1) = map unit_name (filter failed tr2).
Proof.
  revert tr2. induction tr1 as [|e1 tr1 IH]; intros [|e2 tr2] H;
    try discriminate; [reflexivity|].
  cbn [map outcome] in H. injection H as Hn Hs Ht. specialize (IH _ Ht).
  assert (Hf : failed e1 = failed e2) by (unfold failed; congruence).
  cbn [filter]. rewrite Hf.
  destruct (failed e2); cbn [map]; congruence.
Qed.

Lemma Run_same_catalog p q :
  catalog q = catalog p ->
  Forall (fun u => result_determined (snd u)) (catalog p) ->
  exists b p' q' trp trq,
    Run p = Some (b, p') /\ Run q = Some (b, q')
    /\ executions (catalog p) (globals p) = Some trp
    /\ executions (catalog q) (globals q) = Some trq
    /\ map outcome trp = map outcome trq
    /\ exists failures lines,
         Run_loop (catalog p) [] (snd (Instance p))
         = Some (failures,
                 {| instance := Some (fst (Instance p));
                    globals := final_globals (globals p) trp;
                    cout := cout p ++ flat_map report trp |})
         /\ Run_loop (catalog q) [] (snd (Instance q))
            = Some (failures,
                    {| instance := Some (fst (Instance q));
                       globals := final_globals (globals q) trq;
                       cout := cout q ++ flat_map report trq |})
         /\ cout p' = cout p ++ flat_map report trp ++ lines
         /\ cout q' = cout q ++ flat_map report trq ++ lines.
Proof.
  intros Hc Hd.
  destruct (executions_determined _ Hd (globals p) (globals q))
    as (trp & trq & Hp & Hq & Ho).
  pose proof (failed_names_outcome _ _ Ho) as Hfs.
  set (fs := map unit_name (filter failed trq)) in *.
  pose proof (Run_spec p) as HRp. rewrite Hp, Hfs in HRp.
  pose proof (Run_spec q) as HRq. rewrite Hc, Hq in HRq. fold fs in HRq.
  pose proof (Run_loop_catalog p []) as HLp. rewrite Hp, Hfs in HLp.
  pose proof (Run_loop_catalog q []) as HLq. rewrite Hc, Hq in HLq.
  fold fs in HLq.
  destruct (@Run_summary_cout G fs) as (lines & Hlines).
  match type of HRp with _ = Some (Run_summary fs ?a) => set (pa := a) in * end.
  match type of HRq with _ = Some (Run_summary fs ?a) => set (qa := a) in * end.
  exists (fst (Run_summary fs pa)), (snd (Run_summary fs pa)),
    (snd (Run_summary fs qa)), trp, trq.
  split; [rewrite HRp; apply f_equal, surjective_pairing|].
  split.
  { rewrite HRq. apply f_equal, injective_projections; [|reflexivity].
    unfold Run_summary. destruct fs; reflexivity. }
  split; [exact Hp|]. split; [rewrite Hc; exact Hq|]. split; [exact Ho|].
  exists fs, lines.
  split; [exact HLp|]. split; [rewrite Hc; exact HLq|].
  rewrite !Hlines. unfold pa, qa. cbn [cout].
  split; normalize_app; reflexivity.
Qed.

(** C8.  Fix a catalog whose test functions always return and leave a
    result that depends on the result they were handed only.  [Run]
    invoked in any two process states holding that catalog returns the
    same boolean and records the same outcome, name by name; in
    particular so do two invocations of [Run] one after the other.  Of
    [Run] itself: in both invocations its loop returns the same
    [failures] vector and writes the reports of the calls recorded, and
    [Run] then appends the same summary lines. *)
Theorem Run_repeatable p :
  Forall (fun u => result_determined (snd u)) (catalog p) ->
  (forall q, catalog q = catalog p ->
     exists b p' q' trp trq,
       Run p = Some (b, p') /\ Run q = Some (b, q')
       /\ executions (catalog p) (globals p) = Some trp
       /\ executions (catalog q) (globals q) = Some trq
       /\ map outcome trp = map outcome trq
       /\ exists failures lines,
            Run_loop (catalog p) [] (snd (Instance p))
            = Some (failures,
                    {| instance := Some (fst (Instance p));
                       globals := final_globals (globals p) trp;
                       cout := cout p ++ flat_map report trp |})
            /\ Run_loop (catalog q) [] (snd (Instance q))
               = Some (failures,
                       {| instance := Some (fst (Instance q));
                          globals := final_globals (globals q) trq;
                          cout := cout q ++ flat_map report trq |})
            /\ cout p' = cout p ++ flat_map report trp ++ lines
            /\ cout q' = cout q ++ flat_map report trq ++ lines)
  /\ exists b p1 p2 tr1 tr2,
       Run p = Some (b, p1) /\ Run p1 = Some (b, p2)
       /\ executions (catalog p) (globals p) = Some tr1
       /\ executions (catalog p1) (globals p1) = Some tr2
       /\ map outcome tr1 = map outcome tr2
       /\ exists failures lines,
            Run_loop (catalog p) [] (snd (Instance p))
            = Some (failures,
                    {| instance := Some (fst (Instance p));
                       globals := final_globals (globals p) tr1;
                       cout := cout p ++ flat_map report tr1 |})
            /\ Run_loop (catalog p1) [] (snd (Instance p1))
               = Some (failures,
                       {| instance := Some (fst (Instance p1));
                          globals := final_globals (globals p1) tr2;
                          cout := cout p1 ++ flat_map report tr2 |})
            /\ cout p1 = cout p ++ flat_map report tr1 ++ lines
            /\ cout p2 = cout p1 ++ flat_map report tr2 ++ lines.
Proof.
  intros Hd. split.
  - intros q Hq. apply Run_same_catalog; assumption.
  - destruct (Run_same_catalog p p eq_refl Hd)
      as (b & p1 & _ & _ & _ & H1 & _).
    pose proof (Run_catalog _ _ _ H1) as Hc.
    destruct (Run_same_catalog p p1 Hc Hd)
      as (b' & p1' & p2 & tr1 & tr2 & Hp & Hp1 & Ht1 & Ht2 & Ho & Hloops).
    rewrite H1 in Hp. injection Hp as <- <-.
    exists b, p1, p2, tr1, tr2. auto 10.
Qed.

Lemma executions_same_effect units1 name f f' units2 g :
  same_effect f f' ->
  runs_agree_except name (List.length units1)
    (executions (units1 ++ (name, f) :: units2) g)
    (executions (units1 ++ (name, f') :: units2) g).
Proof.
  intros Hsame. unfold runs_agree_except. revert g.
  induction units1 as [|[n h] units1 IH]; intros g; simpl.
  - specialize (Hsame UnitFunctionResult_default g).
    destruct (f UnitFunctionResult_default g) as [[[r g1] o]|];
      destruct (f' UnitFunctionResult_default g) as [[[r' g1'] o']|];
      simpl in Hsame; try discriminate; [|exact I].
    injection Hsame as <-.
    destruct (executions units2 g1) as [tr2|]; [|exact I].
    eexists [], _, _, tr2. simpl. repeat split.
  - destruct (h UnitFunctionResult_default g) as [[[r g1] o]|]; [|exact I].
    specialize (IH g1).
    destruct (executions (units1 ++ (name, f) :: units2) g1) as [tr|];
      destruct (executions (units1 ++ (name, f') :: units2) g1) as [tr'|];
      try contradiction; [|exact I].
    destruct IH as (tr1 & e & e' & tr2 & -> & -> & Hl & H).
    eexists (_ :: tr1), e, e', tr2. simpl.
    split; [reflexivity|]. split; [reflexivity|]. split; [congruence|exact H].
Qed.

Lemma Run_loop_same_effect units1 name f f' units2 failures p :
  same_effect f f' ->
  loops_agree_except name f f' failures p
    (Run_loop (units1 ++ (name, f) :: units2) failures p)
    (Run_loop (units1 ++ (name, f') :: units2) failures p).
Proof.
  intros Hsame. revert failures p.
  induction units1 as [|[n h] units1 IH]; intros failures p.
  - cbn [app].
    pose proof (Hsame UnitFunctionResult_default (globals p)) as Hs.
    destruct (f UnitFunctionResult_default (globals p))
      as [[[r g1] o]|] eqn:Ef;
      destruct (f' UnitFunctionResult_default (globals p))
        as [[[r' g1'] o']|] eqn:Ef';
      simpl in Hs; try discriminate.
    + injection Hs as <-.
      rewrite (Run_loop_step _ _ _ _ _ _ _ _ Ef),
        (Run_loop_step _ _ _ _ _ _ _ _ Ef'), !Run_loop_spec.
      cbn [globals instance cout].
      destruct (executions units2 g1) as [tr2|]; [|left; split; reflexivity].
      right.
      exists [], (map unit_name (filter failed tr2)), [],
        (flat_map report tr2),
        {| unit_name := name; unit_entry := globals p; unit_result := r;
           unit_exit := g1; unit_output := o |},
        {| unit_name := name; unit_entry := globals p; unit_result := r';
           unit_exit := g1; unit_output := o' |},
        (final_globals g1 tr2).
      unfold call_of, failed, report. cbn [unit_name unit_entry unit_result
        unit_exit unit_output app].
      repeat split; try assumption.
      * f_equal. f_equal.
        -- destruct (success r); cbn [negb]; normalize_app; reflexivity.
        -- f_equal. normalize_app. reflexivity.
      * f_equal. f_equal.
        -- destruct (success r'); cbn [negb]; normalize_app; reflexivity.
        -- f_equal. normalize_app. reflexivity.
    + left. cbn [Run_loop fst snd]. unfold endl. cbn [globals].
      rewrite Ef, Ef'. split; reflexivity.
  - change (((n, h) :: units1) ++ (name, f) :: units2)
      with ((n, h) :: (units1 ++ (name, f) :: units2)).
    change (((n, h) :: units1) ++ (name, f') :: units2)
      with ((n, h) :: (units1 ++ (name, f') :: units2)).
    destruct (h UnitFunctionResult_default (globals p))
      as [[[r g1] o]|] eqn:Eh.
    + rewrite !(Run_loop_step _ _ _ _ _ _ _ _ Eh).
      match goal with
      | |- loops_agree_except _ _ _ _ _ (Run_loop _ ?fs ?q) _ =>
          destruct (IH fs q)
            as [[E1 E2]|(F1 & F2 & R1 & R2 & e & e' & g' & Hn & Hn' & Hc
                         & Hc' & He & Hx & E1 & E2)]
      end.
      * left. split; assumption.
      * right. rewrite E1, E2.
        exists ((if negb (success r) then [n] else []) ++ F1), F2,
          ([MICROUNIT_SEPARATOR;
            ("[    ] Test case '" ++ n ++ "'")%string]
           ++ o ++ [if success r then "[    ] Success"
                    else "[!!!!] Failure"] ++ R1),
          R2, e, e', g'.
        cbn [globals instance cout].
        repeat split; try assumption.
        -- f_equal. f_equal.
           ++ destruct (success r); cbn [negb]; normalize_app; reflexivity.
           ++ f_equal. normalize_app. reflexivity.
        -- f_equal. f_equal.
           ++ destruct (success r); cbn [negb]; normalize_app; reflexivity.
           ++ f_equal. normalize_app. reflexivity.
    + left. cbn [Run_loop fst snd]. unfold endl. cbn [globals].
      rewrite Eh. split; reflexivity.
Qed.

(** C9.  [Run] leaves the catalog as it found it.  And replace, anywhere
    in a list of entries the loop visits, a test function by one that
    returns in the same situations and leaves the same client state but
    may record a different result (pass instead of failure, say): the
    loop completes in the one case exactly when it does in the other, and
    then the calls made for all other entries, before and after, are the
    same calls, entered in the same states, with the same results and
    output; the call for the replaced entry is entered and left in the
    same client state.  Of the loop itself, from any [failures] and any
    process state: both loops leave the same client state, the same
    names in [failures] apart from the replaced case's own, and the same
    lines on [std::cout] apart from that case's own report. *)
Theorem Run_isolates_cases_and_keeps_catalog :
  (forall p b p', Run p = Some (b, p') -> catalog p' = catalog p)
  /\ (forall units1 name f f' units2 g,
        same_effect f f' ->
        runs_agree_except name (List.length units1)
          (executions (units1 ++ (name, f) :: units2) g)
          (executions (units1 ++ (name, f') :: units2) g))
  /\ forall units1 name f f' units2 failures p,
       same_effect f f' ->
       loops_agree_except name f f' failures p
         (Run_loop (units1 ++ (name, f) :: units2) failures p)
         (Run_loop (units1 ++ (name, f') :: units2) failures p).
Proof.
  split; [exact Run_catalog|]. split.
  - intros. apply executions_same_effect. assumption.
  - intros. apply Run_loop_same_effect. assumption.
Qed.

End RunClaims.

(** ** The properties at [sample.cpp] *)

Section SampleRuns.

Import Sample.

(** What [main] of [sample.cpp] prints, and what its call of [Run]
    returns. *)
Example Run_sample_output :
  option_map (fun r => (fst r, cout (snd r))) (Run at_main)
  = Some (false,
          [MICROUNIT_SEPARATOR;
           "[    ] Test case 'Test_Double'";
           "[    ] Success";
           MICROUNIT_SEPARATOR;
           "[    ] Test case 'Test_Double_Flawed'";
           "[    ] Test failed ";
           "[!!!!] Failure";
           MICROUNIT_SEPARATOR;
           "[    ] Test case 'Test_Flawed_Two_Plus_Two'";
           "[    ] Test Assert failed: 2 + 2 == 3";
           "[    ] Test failed ";
           "[!!!!] Failure";
           MICROUNIT_SEPARATOR;
           "[    ] Test case 'Test_Two_Plus_Two'";
           "[    ] Success";
           MICROUNIT_SEPARATOR;
           MICROUNIT_SEPARATOR;
           "[!!!!] Failed 2 test cases:";
           "> Test_Double_Flawed";
           "> Test_Flawed_Two_Plus_Two";
           MICROUNIT_SEPARATOR]).
Proof. vm_compute. reflexivity. Qed.

(** [Run] on the four cases of [sample.cpp] returns [false]: two of the
    calls recorded a failure. *)
Lemma Run_result_and_failure_list_sample :
  executions (catalog at_main) (globals at_main) = Some trace
  /\ exists p',
       Run at_main = Some (false, p')
       /\ cout p'
          = flat_map report trace
            ++ [MICROUNIT_SEPARATOR; MICROUNIT_SEPARATOR;
                "[!!!!] Failed 2 test cases:";
                "> Test_Double_Flawed"; "> Test_Flawed_Two_Plus_Two";
                MICROUNIT_SEPARATOR].
Proof.
  assert (H : executions (catalog at_main) (globals at_main) = Some trace)
    by (vm_compute; reflexivity).
  split; [exact H|].
  destruct (Run_result_and_failure_list at_main trace H)
    as (b & p' & HR & _ & _ & HK).
  destruct (HK 2 ltac:(lia) eq_refl) as (-> & _ & Hc).
  exists p'. split; [exact HR|exact Hc].
Defined.

(** A program that declares no case. *)
Lemma Run_empty_catalog_sample :
  catalog start = []
  /\ exists p',
       Run start = Some (true, p')
       /\ cout p'
          = [MICROUNIT_SEPARATOR; MICROUNIT_SEPARATOR;
             "[    ] All tests passed"; MICROUNIT_SEPARATOR]
       /\ globals p' = tt.
Proof.
  split; [reflexivity|].
  exact (Run_empty_catalog start eq_refl).
Defined.

(** "Test_Double" registered with the flawed case first and with the
    sound one afterwards: the flawed one is kept, it is the one a run
    calls, and so the run fails on "Test_Double". *)
Lemma duplicate_registration_keeps_first_sample :
  let p :=
    static_init
      [("Test_Two_Plus_Two", Test_Two_Plus_Two);
       ("Test_Double", Test_Double_Flawed);
       ("Test_Flawed_Two_Plus_Two", Test_Flawed_Two_Plus_Two);
       ("Test_Double", Test_Double)]
      start in
  ~ In "Test_Double" (map fst [("Test_Two_Plus_Two", Test_Two_Plus_Two)])
  /\ map_find "Test_Double" (catalog p) = Some Test_Double_Flawed
  /\ map_count "Test_Double" (catalog p) = 1
  /\ exists tr e failures q p',
       executions (catalog p) (globals p) = Some tr
       /\ filter (fun e => String.eqb "Test_Double" (unit_name e)) tr = [e]
       /\ call_of Test_Double_Flawed e
       /\ Run_loop (catalog p) [] (snd (Instance p)) = Some (failures, q)
       /\ In "Test_Double" failures
       /\ Run p = Some (false, p').
Proof.
  intros p.
  assert (H : ~ In "Test_Double"
                (map fst [("Test_Two_Plus_Two", Test_Two_Plus_Two)])).
  { simpl. intros [E|[]]. discriminate E. }
  pose proof (duplicate_registration_keeps_first tt []
                [("Test_Two_Plus_Two", Test_Two_Plus_Two)]
                [("Test_Flawed_Two_Plus_Two", Test_Flawed_Two_Plus_Two)] []
                "Test_Double" Test_Double_Flawed Test_Double H)
    as (_ & _ & _ & Hcount & Hfind & _ & Hrun).
  split; [exact H|]. split; [exact Hfind|]. split; [exact Hcount|].
  destruct (executions (catalog p) (globals p)) as [tr|] eqn:E.
  - destruct (Hrun tr E)
      as (e & He & Hc & failures & q & b & p' & HL & Hfs & _ & HR & Hb & _).
    assert (Hfailed : success (unit_result e) = false).
    { assert (Hcomp : Test_Double_Flawed UnitFunctionResult_default tt
                      = Some ({| success := false |}, tt,
                              ["[    ] Test failed "]))
        by (vm_compute; reflexivity).
      unfold call_of in Hc. destruct (unit_entry e).
      rewrite Hcomp in Hc. injection Hc as Hr _ _. rewrite <- Hr.
      reflexivity. }
    exists tr, e, failures, q, p'.
    split; [reflexivity|]. split; [exact He|]. split; [exact Hc|].
    split; [exact HL|]. split; [exact (proj2 Hfs Hfailed)|].
    rewrite <- (Hb Hfailed). exact HR.
  - exfalso. vm_compute in E. discriminate E.
Defined.

(** The four cases run in name order, not in declaration order, and
    declaring them in the opposite order changes nothing. *)
Lemma Run_visits_in_name_order_sample :
  executions (catalog at_main) (globals at_main) = Some trace
  /\ map unit_name trace = map fst (catalog at_main)
  /\ StronglySorted name_lt (map fst (catalog at_main))
  /\ map fst (catalog (static_init (rev registrations) start))
     = map fst (catalog at_main)
  /\ Forall2 (fun u e => unit_name e = fst u /\ call_of (snd u) e)
       (catalog at_main) trace
  /\ chained (globals at_main) trace
  /\ Run_loop (catalog at_main) [] (snd (Instance at_main))
     = Some (["Test_Double_Flawed"; "Test_Flawed_Two_Plus_Two"],
             {| instance := Some (fst (Instance at_main));
                globals := tt;
                cout := flat_map report trace |}).
Proof.
  assert (H : executions (catalog at_main) (globals at_main) = Some trace)
    by (vm_compute; reflexivity).
  split; [exact H|].
  pose proof (Run_visits_in_name_order tt [] registrations)
    as (Hs & _ & Ht & Hperm & Hrun).
  split; [exact (proj1 (Ht trace H))|]. split; [exact Hs|].
  split.
  { apply (Hperm tt [] (rev registrations)).
    intros n. simpl. intuition. }
  assert (Hcalls : Forall2
            (fun u e => unit_name e = fst u /\ call_of (snd u) e)
            (catalog at_main) trace).
  { change (catalog at_main)
      with [("Test_Double", Test_Double);
            ("Test_Double_Flawed", Test_Double_Flawed);
            ("Test_Flawed_Two_Plus_Two", Test_Flawed_Two_Plus_Two);
            ("Test_Two_Plus_Two", Test_Two_Plus_Two)].
    repeat constructor; vm_compute; reflexivity. }
  assert (Hch : chained (globals at_main) trace).
  { simpl. repeat split. }
  split; [exact Hcalls|]. split; [exact Hch|].
  exact (proj1 (proj2 (Hrun trace Hcalls Hch)) []).
Defined.

(** [ASSERT_TRUE(2 + 2 == 3)] and [ASSERT_FALSE(2 + 2 == 4)], each
    followed by [PASS()], which is never reached. *)
Lemma violated_assert_halts_and_fails_sample :
  let st0 : State unit := (UnitFunctionResult_default, tt) in
  let c3 : expr unit bool := ret (2 + 2 =? 3)%Z in
  let c4 : expr unit bool := ret (2 + 2 =? 4)%Z in
  (reaches (ASSERT_TRUE "2 + 2 == 3" c3)
     (seq (ASSERT_TRUE "2 + 2 == 3" c3) PASS) st0 st0 []
   /\ c3 st0 = Some (false, st0, [])
   /\ halts_failed (seq (ASSERT_TRUE "2 + 2 == 3" c3) PASS) st0 tt
        ["[    ] Test Assert failed: 2 + 2 == 3"; "[    ] Test failed "])
  /\ (reaches (ASSERT_FALSE "2 + 2 == 4" c4)
        (seq (ASSERT_FALSE "2 + 2 == 4" c4) PASS) st0 st0 []
      /\ c4 st0 = Some (true, st0, [])
      /\ halts_failed (seq (ASSERT_FALSE "2 + 2 == 4" c4) PASS) st0 tt
           ["[    ] Test Assert failed: 2 + 2 == 4"; "[    ] Test failed "]).
Proof.
  intros st0 c3 c4. split.
  - assert (Hr : reaches (ASSERT_TRUE "2 + 2 == 3" c3)
                   (seq (ASSERT_TRUE "2 + 2 == 3" c3) PASS) st0 st0 [])
      by (apply reaches_first, reaches_here).
    split; [exact Hr|]. split; [reflexivity|].
    exact (proj1 (violated_assert_halts_and_fails "2 + 2 == 3" c3 _
                    st0 st0 st0 [] []) Hr eq_refl).
  - assert (Hr : reaches (ASSERT_FALSE "2 + 2 == 4" c4)
                   (seq (ASSERT_FALSE "2 + 2 == 4" c4) PASS) st0 st0 [])
      by (apply reaches_first, reaches_here).
    split; [exact Hr|]. split; [reflexivity|].
    exact (proj2 (violated_assert_halts_and_fails "2 + 2 == 4" c4 _
                    st0 st0 st0 [] []) Hr eq_refl).
Defined.

(** The loop of [Test_Double_Flawed] arrives at [FAIL()] in its 101st
    iteration, [i == 100], and the remaining 899 iterations do not run. *)
Lemma FAIL_fails_and_returns_sample :
  let st0 : State unit := (UnitFunctionResult_default, tt) in
  let body : stmt unit :=
    for_ 1000 0
      (fun i => if_ (ret (negb (DoubleFlawed i =? 2 * i)%Z)) FAIL) in
  reaches FAIL body st0 st0 []
  /\ halts_failed body st0 tt ["[    ] Test failed "].
Proof.
  intros st0 body.
  assert (Hr : reaches FAIL body st0 st0 []).
  { unfold body.
    do 100 (apply (reaches_for_next FAIL _ _ _ st0 st0 st0);
            [vm_compute; reflexivity|]).
    apply reaches_for_now.
    exact (reaches_if_true FAIL _ FAIL st0 st0 [] st0 [] eq_refl
             (reaches_here FAIL st0)). }
  split; [exact Hr|].
  exact (FAIL_fails_and_returns body st0 st0 [] Hr).
Defined.

(** A case with an empty body, run after a case that failed. *)
Lemma untouched_result_is_pass_sample :
  let e : UnitRun unit :=
    {| unit_name := "Empty"; unit_entry := tt;
       unit_result := UnitFunctionResult_default; unit_exit := tt;
       unit_output := [] |} in
  preserves_result (skip : stmt unit)
  /\ call_of (UNIT skip) e
  /\ success (unit_result e) = true
  /\ Run_loop [("Empty", UNIT skip)] ["Earlier"] start
     = Some (["Earlier"],
             {| instance := None; globals := tt;
                cout := [MICROUNIT_SEPARATOR; "[    ] Test case 'Empty'";
                         "[    ] Success"] |}).
Proof.
  intros e.
  assert (H : preserves_result (skip : stmt unit)).
  { intros st k st' out E. injection E as _ <- _. reflexivity. }
  pose proof (untouched_result_is_pass skip H) as (_ & _ & Hcall & Hloop).
  split; [exact H|]. split; [reflexivity|].
  split; [exact (Hcall e eq_refl)|].
  exact (Hloop "Empty" [] ["Earlier"] start Normal
           (UnitFunctionResult_default, tt) [] eq_refl).
Defined.

(** [ASSERT_TRUE(2 + 2 == 4)] and [ASSERT_FALSE(2 + 2 == 3)]. *)
Lemma held_assert_continues_sample :
  let st0 : State unit := (UnitFunctionResult_default, tt) in
  let c3 : expr unit bool := ret (2 + 2 =? 3)%Z in
  let c4 : expr unit bool := ret (2 + 2 =? 4)%Z in
  (c4 st0 = Some (true, st0, [])
   /\ ASSERT_TRUE "2 + 2 == 4" c4 st0 = Some (Normal, st0, [])
   /\ seq (ASSERT_TRUE "2 + 2 == 4" c4) FAIL st0 = FAIL st0)
  /\ (c3 st0 = Some (false, st0, [])
      /\ ASSERT_FALSE "2 + 2 == 3" c3 st0 = Some (Normal, st0, [])
      /\ seq (ASSERT_FALSE "2 + 2 == 3" c3) FAIL st0 = FAIL st0).
Proof.
  intros st0 c3 c4. split.
  - pose proof (proj1 (held_assert_continues "2 + 2 == 4" c4 st0 st0 [])
                  eq_refl) as (H1 & _ & H3).
    split; [reflexivity|]. split; [exact H1|].
    exact (H3 eq_refl eq_refl FAIL).
  - pose proof (proj2 (held_assert_continues "2 + 2 == 3" c3 st0 st0 [])
                  eq_refl) as (H1 & _ & H3).
    split; [reflexivity|]. split; [exact H1|].
    exact (H3 eq_refl eq_refl FAIL).
Defined.

Lemma sample_result_determined :
  Forall (fun u => result_determined (snd u)) (catalog at_main).
Proof.
  change (catalog at_main)
    with [("Test_Double", Test_Double);
          ("Test_Double_Flawed", Test_Double_Flawed);
          ("Test_Flawed_Two_Plus_Two", Test_Flawed_Two_Plus_Two);
          ("Test_Two_Plus_Two", Test_Two_Plus_Two)].
  repeat constructor; simpl.
  - exists (fun r => r). intros r []. exists tt, [].
    vm_compute. reflexivity.
  - exists (fun _ => {| success := false |}). intros r [].
    exists tt, ["[    ] Test failed "]. vm_compute. reflexivity.
  - exists (fun _ => {| success := false |}). intros r [].
    exists tt, ["[    ] Test Assert failed: 2 + 2 == 3";
                "[    ] Test failed "].
    reflexivity.
  - exists (fun r => r). intros r []. exists tt, []. reflexivity.
Defined.

(** [Run] called twice in a row on the cases of [sample.cpp], and called
    with other output already on [std::cout]. *)
Lemma Run_repeatable_sample :
  let q : Process unit :=
    {| instance := instance at_main; globals := tt;
       cout := ["written earlier"] |} in
  Forall (fun u => result_determined (snd u)) (catalog at_main)
  /\ catalog q = catalog at_main
  /\ (exists b p' q' failures P Q,
        Run at_main = Some (b, p') /\ Run q = Some (b, q')
        /\ Run_loop (catalog at_main) [] (snd (Instance at_main))
           = Some (failures, P)
        /\ Run_loop (catalog q) [] (snd (Instance q)) = Some (failures, Q))
  /\ exists b p1 p2 failures P1 P2,
       Run at_main = Some (b, p1) /\ Run p1 = Some (b, p2)
       /\ Run_loop (catalog at_main) [] (snd (Instance at_main))
          = Some (failures, P1)
       /\ Run_loop (catalog p1) [] (snd (Instance p1))
          = Some (failures, P2).
Proof.
  intros q.
  pose proof (Run_repeatable at_main sample_result_determined)
    as (Hany & Htwice).
  split; [exact sample_result_determined|]. split; [reflexivity|].
  split.
  - destruct (Hany q eq_refl)
      as (b & p' & q' & trp & trq & Hp & Hq & _ & _ & _
          & failures & lines & HLp & HLq & _).
    exists b, p', q', failures. do 2 eexists.
    split; [exact Hp|]. split; [exact Hq|]. split; [exact HLp|exact HLq].
  - destruct Htwice
      as (b & p1 & p2 & tr1 & tr2 & H1 & H2 & _ & _ & _
          & failures & lines & HL1 & HL2 & _).
    exists b, p1, p2, failures. do 2 eexists.
    split; [exact H1|]. split; [exact H2|]. split; [exact HL1|exact HL2].
Defined.

(** [sample.cpp] with [Test_Flawed_Two_Plus_Two] bound to the failing
    function and to the passing one: the case run after it is not
    affected, and [Run] leaves the catalog alone. *)
Lemma Run_isolates_cases_and_keeps_catalog_sample :
  let units1 := [("Test_Double", Test_Double)] in
  let units2 := [("Test_Two_Plus_Two", Test_Two_Plus_Two)] in
  let name := "Test_Flawed_Two_Plus_Two" in
  same_effect Test_Flawed_Two_Plus_Two Test_Two_Plus_Two
  /\ runs_agree_except name 1
       (executions
          (units1 ++ (name, Test_Flawed_Two_Plus_Two) :: units2) tt)
       (executions (units1 ++ (name, Test_Two_Plus_Two) :: units2) tt)
  /\ loops_agree_except name Test_Flawed_Two_Plus_Two Test_Two_Plus_Two
       [] start
       (Run_loop (units1 ++ (name, Test_Flawed_Two_Plus_Two) :: units2)
          [] start)
       (Run_loop (units1 ++ (name, Test_Two_Plus_Two) :: units2) [] start)
  /\ exists b p', Run at_main = Some (b, p')
                  /\ catalog p' = catalog at_main.
Proof.
  intros units1 units2 name.
  assert (H : same_effect Test_Flawed_Two_Plus_Two Test_Two_Plus_Two).
  { intros r []. reflexivity. }
  pose proof (@Run_isolates_cases_and_keeps_catalog unit)
    as (Hcat & Hruns & Hloops).
  split; [exact H|]. split; [|split].
  - exact (Hruns units1 name Test_Flawed_Two_Plus_Two Test_Two_Plus_Two
             units2 tt H).
  - exact (Hloops units1 name Test_Flawed_Two_Plus_Two Test_Two_Plus_Two
             units2 [] start H).
  - destruct (Run at_main) as [[b p']|] eqn:E.
    + exists b, p'. split; [reflexivity|].
      exact (Hcat _ _ _ E).
    + exfalso. apply Run_returns in E.
      assert (E' : executions (catalog at_main) (globals at_main)
                   = Some trace) by (vm_compute; reflexivity).
      rewrite E' in E. discriminate E.
Defined.

End SampleRuns.

(** * Further properties of the catalog *)

Section CatalogMore.

Context {G : Type}.
Implicit Types (m : unit_map G) (p : Process G) (f : UnitFunction G)
  (l : list (string * UnitFunction G)).

Lemma emplace_incl name f m u : In u m -> In u (emplace name f m).
Proof.
  induction m as [|[k g] m IH]; simpl; [contradiction|].
  destruct (String.compare name k); simpl; intuition.
Qed.

Lemma emplace_In name f m u :
  In u (emplace name f m) -> u = (name, f) \/ In u m.
Proof.
  induction m as [|[k g] m IH]; simpl.
  - intuition.
  - destruct (String.compare name k); simpl; intuition.
Qed.

Lemma emplace_length_absent name f m :
  map_find name m = None ->
  List.length (emplace name f m) = S (List.length m).
Proof.
  induction m as [|[k g] m IH]; simpl; [reflexivity|].
  destruct (String.eqb_spec name k) as [->|Hne]; [discriminate|].
  intros Hnone. destruct (String.compare name k) eqn:E; simpl.
  - apply String.compare_eq_iff in E. contradiction.
  - reflexivity.
  - rewrite IH; auto.
Qed.

Lemma map_find_Some_In name m f :
  map_find name m = Some f -> In (name, f) m.
Proof.
  induction m as [|[k g] m IH]; simpl; [discriminate|].
  destruct (String.eqb_spec name k) as [->|Hne].
  - intros H. injection H as ->. left. reflexivity.
  - auto.
Qed.

Lemma ordered_In_map_find name m f :
  ordered m -> In (name, f) m -> map_find name m = Some f.
Proof.
  intros Hm Hin.
  destruct (map_find name m) as [g|] eqn:E.
  - pose proof (map_count_ordered _ _ _ Hm E) as Hf.
    assert (H : In (name, f)
                  (filter (fun e => String.eqb name (fst e)) m)).
    { apply filter_In. split; [exact Hin|]. apply String.eqb_refl. }
    rewrite Hf in H. destruct H as [H|[]]. congruence.
  - exfalso. assert (H : map_find name m <> None).
    { apply map_find_In. apply (in_map fst) in Hin. exact Hin. }
    contradiction.
Qed.

(** X10.  A registration never removes an entry and never rebinds a
    name: every entry of the catalog is still an entry afterwards, the
    only entry that can be new is the registered pair, the catalog grows
    by one entry when the name was not bound and keeps its size when it
    was, and neither [std::cout] nor the client state is touched. *)
Theorem RegisterFunction_only_adds name f p :
  ordered (catalog p) ->
  (forall u, In u (catalog p) -> In u (catalog (RegisterFunction name f p)))
  /\ (forall u, In u (catalog (RegisterFunction name f p)) ->
        u = (name, f) \/ In u (catalog p))
  /\ List.length (catalog (RegisterFunction name f p))
     = match map_find name (catalog p) with
       | Some _ => List.length (catalog p)
       | None => S (List.length (catalog p))
       end
  /\ ordered (catalog (RegisterFunction name f p))
  /\ globals (RegisterFunction name f p) = globals p
  /\ cout (RegisterFunction name f p) = cout p.
Proof.
  intros Hp. rewrite catalog_RegisterFunction.
  split; [intros u; apply emplace_incl|].
  split; [intros u; apply emplace_In|]. split.
  - destruct (map_find name (catalog p)) as [g|] eqn:E.
    + rewrite emplace_present; [reflexivity|exact Hp|].
      apply map_find_In. congruence.
    + apply emplace_length_absent, E.
  - split; [apply emplace_ordered, Hp|].
    destruct (RegisterFunction_frame name f p) as (Hg & Hc & _). auto.
Qed.

(** The catalog binds every name to the function of its first
    registration, whatever was registered before or after. *)
Lemma static_init_find l p x :
  ordered (catalog p) ->
  map_find x (catalog (static_init l p))
  = match map_find x (catalog p) with
    | Some h => Some h
    | None => map_find x l
    end.
Proof.
  revert p. induction l as [|[n f] l IH]; intros p Hp.
  - simpl. destruct (map_find x (catalog p)); reflexivity.
  - change (static_init ((n, f) :: l) p)
      with (static_init l (RegisterFunction n f p)).
    rewrite IH, catalog_RegisterFunction; [|rewrite catalog_RegisterFunction;
                                             apply emplace_ordered, Hp].
    simpl. destruct (String.eqb_spec x n) as [->|Hne].
    + destruct (map_find n (catalog p)) as [h|] eqn:E.
      * rewrite (map_find_emplace_kept _ _ _ _ _ Hp E). reflexivity.
      * rewrite (map_find_emplace_absent _ _ _ E). reflexivity.
    + rewrite (map_find_emplace_other _ _ _ _ Hne). reflexivity.
Qed.

(** X2.  After any sequence [l] of registrations since program start,
    looking a name up in the catalog gives the function of the first
    registration under that name in [l], and nothing for a name never
    registered; the entries of the catalog are exactly those pairs. *)
Theorem static_init_binds_first (g : G) (out : list string) l :
  let p := static_init l {| instance := None; globals := g; cout := out |} in
  (forall x, map_find x (catalog p) = map_find x l)
  /\ (forall x f, In (x, f) (catalog p) <-> map_find x l = Some f).
Proof.
  intros p.
  assert (H : forall x, map_find x (catalog p) = map_find x l).
  { intros x. unfold p. rewrite static_init_find; [reflexivity|].
    apply ordered_nil. }
  split; [exact H|].
  intros x f. rewrite <- H. split.
  - apply ordered_In_map_find. apply static_init_ordered, ordered_nil.
  - apply map_find_Some_In.
Qed.

(** Two key-ordered maps with the same lookups are the same map. *)
Lemma ordered_map_ext m1 m2 :
  ordered m1 -> ordered m2 ->
  (forall x, map_find x m1 = map_find x m2) -> m1 = m2.
Proof.
  intros H1 H2 Hfind.
  assert (Hin : forall u, In u m1 <-> In u m2).
  { intros [x f]. split; intros Hu.
    - apply map_find_Some_In. rewrite <- Hfind.
      apply ordered_In_map_find; assumption.
    - apply map_find_Some_In. rewrite Hfind.
      apply ordered_In_map_find; assumption. }
  clear Hfind. revert m2 H2 Hin. unfold ordered in *.
  induction m1 as [|[k1 f1] m1 IH]; intros m2 H2 Hin.
  - destruct m2 as [|u m2]; [reflexivity|].
    exfalso. apply (Hin u). left. reflexivity.
  - destruct m2 as [|[k2 f2] m2].
    { exfalso. apply (Hin (k1, f1)). left. reflexivity. }
    simpl in H1, H2.
    inversion H1 as [|? ? H1' Hk1]; subst.
    inversion H2 as [|? ? H2' Hk2]; subst.
    rewrite Forall_forall in Hk1, Hk2.
    assert (Hhead : (k1, f1) = (k2, f2)).
    { destruct (proj1 (Hin (k1, f1)) (or_introl eq_refl)) as [E|E1];
        [auto|].
      destruct (proj2 (Hin (k2, f2)) (or_introl eq_refl)) as [E|E2];
        [auto|].
      exfalso. apply (name_lt_irrefl k1).
      eapply name_lt_trans.
      - apply Hk1. apply (in_map fst) in E2. exact E2.
      - apply Hk2. apply (in_map fst) in E1. exact E1. }
    injection Hhead as <- <-. f_equal.
    apply IH; [exact H1'|exact H2'|].
    intros u. split; intros Hu.
    + destruct (proj1 (Hin u) (or_intror Hu)) as [E|E]; [|exact E].
      subst u. exfalso. apply (name_lt_irrefl k1).
      apply Hk1. apply (in_map fst) in Hu. exact Hu.
    + destruct (proj2 (Hin u) (or_intror Hu)) as [E|E]; [|exact E].
      subst u. exfalso. apply (name_lt_irrefl k1).
      apply Hk2. apply (in_map fst) in Hu. exact Hu.
Qed.

Lemma NoDup_map_find l x f :
  NoDup (map fst l) -> In (x, f) l -> map_find x l = Some f.
Proof.
  induction l as [|[k g] l IH]; simpl; intros Hnd Hin; [contradiction|].
  inversion Hnd as [|? ? Hk Hnd']; subst.
  destruct Hin as [E|Hin].
  - injection E as -> ->. rewrite String.eqb_refl. reflexivity.
  - destruct (String.eqb_spec x k) as [->|_]; [|auto].
    exfalso. apply Hk. apply (in_map fst) in Hin. exact Hin.
Qed.

Lemma static_init_frame l p :
  globals (static_init l p) = globals p
  /\ cout (static_init l p) = cout p
  /\ instance (static_init l p)
     = match l with
       | [] => instance p
       | _ :: _ =>
           Some {| unitfunction_map_ := catalog (static_init l p) |}
       end.
Proof.
  revert p. induction l as [|[n f] l IH]; intros p; [auto|].
  change (static_init ((n, f) :: l) p)
    with (static_init l (RegisterFunction n f p)).
  destruct (IH (RegisterFunction n f p)) as (Hg & Hc & Hi).
  destruct (RegisterFunction_frame n f p) as (Hg' & Hc' & Hi').
  split; [congruence|]. split; [congruence|].
  rewrite Hi. destruct l; [|reflexivity].
  simpl. rewrite Hi', catalog_RegisterFunction. reflexivity.
Qed.

(** X3.  When the registered names are distinct, the order in which the
    registrations run does not matter: any permutation of them leaves
    the very same process state when [main] is entered, hence the same
    behaviour of [Run]. *)
Theorem static_init_order_irrelevant
  (g : G) (out : list string) l l' :
  NoDup (map fst l) -> Permutation l l' ->
  let start := {| instance := None; globals := g; cout := out |} in
  static_init l' start = static_init l start
  /\ Run (static_init l' start) = Run (static_init l start).
Proof.
  intros Hnd Hperm start.
  assert (Hnd' : NoDup (map fst l')).
  { eapply Permutation_NoDup; [|exact Hnd]. apply Permutation_map, Hperm. }
  assert (Hcat : catalog (static_init l' start)
                 = catalog (static_init l start)).
  { apply ordered_map_ext;
      try (apply static_init_ordered, ordered_nil).
    intros x. rewrite !static_init_find by apply ordered_nil. simpl.
    destruct (map_find x l) as [f|] eqn:E.
    - apply NoDup_map_find; [exact Hnd'|].
      eapply Permutation_in; [exact Hperm|].
      apply map_find_Some_In, E.
    - destruct (map_find x l') as [f'|] eqn:E'; [|reflexivity].
      exfalso. apply map_find_Some_In in E'.
      apply Permutation_sym in Hperm.
      apply (Permutation_in _ Hperm) in E'.
      rewrite (NoDup_map_find _ _ _ Hnd E') in E. discriminate. }
  assert (Heq : static_init l' start = static_init l start).
  { destruct (static_init_frame l start) as (Hg & Hc & Hi).
    destruct (static_init_frame l' start) as (Hg' & Hc' & Hi').
    destruct (static_init l start) as [i1 g1 c1].
    destruct (static_init l' start) as [i2 g2 c2].
    simpl in *. subst g1 c1 g2 c2. f_equal.
    rewrite Hi, Hi'.
    destruct l as [|u l]; destruct l' as [|u' l'].
    - reflexivity.
    - apply Permutation_nil in Hperm. discriminate.
    - apply Permutation_sym, Permutation_nil in Hperm. discriminate.
    - rewrite Hcat. reflexivity. }
  split; [exact Heq|]. rewrite Heq. reflexivity.
Qed.

Lemma sorted_names_NoDup (names : list string) :
  StronglySorted name_lt names -> NoDup names.
Proof.
  induction 1 as [|a names _ IH Ha]; constructor; [|exact IH].
  intros Hin. rewrite Forall_forall in Ha.
  exact (name_lt_irrefl a (Ha a Hin)).
Qed.

(** X4.  The catalog holds one entry per distinct registered name, and a
    run that completes makes exactly that many calls: the loop of [Run]
    returns having written the reports of that many calls, no two of them
    under the same name. *)
Theorem catalog_size_is_distinct_names (g : G) (out : list string) l :
  let p := static_init l {| instance := None; globals := g; cout := out |} in
  List.length (catalog p)
  = List.length (nodup string_dec (map fst l))
  /\ NoDup (map fst (catalog p))
  /\ forall tr, executions (catalog p) (globals p) = Some tr ->
       List.length tr = List.length (nodup string_dec (map fst l))
       /\ NoDup (map unit_name tr)
       /\ forall failures,
            Run_loop (catalog p) failures (snd (Instance p))
            = Some (failures ++ map unit_name (filter failed tr),
                    {| instance := Some (fst (Instance p));
                       globals := final_globals (globals p) tr;
                       cout := cout p ++ flat_map report tr |}).
Proof.
  intros p.
  assert (Hnd : NoDup (map fst (catalog p))).
  { apply sorted_names_NoDup.
    apply (static_init_ordered l), ordered_nil. }
  assert (Hlen : List.length (catalog p)
                 = List.length (nodup string_dec (map fst l))).
  { rewrite <- (length_map fst (catalog p)).
    apply Permutation_length, NoDup_Permutation;
      [exact Hnd|apply NoDup_nodup|].
    intros x. rewrite nodup_In. unfold p.
    rewrite static_init_names. simpl. intuition. }
  split; [exact Hlen|]. split; [exact Hnd|].
  intros tr Htr. pose proof (executions_names _ _ _ Htr) as Hn.
  split; [|split].
  - rewrite <- Hlen, <- (length_map unit_name tr), Hn.
    apply length_map.
  - rewrite Hn. exact Hnd.
  - intros failures. rewrite Run_loop_catalog, Htr. reflexivity.
Qed.

End CatalogMore.

(** * Further properties of the driver *)

Section DriverMore.

Context {G : Type}.
Implicit Types (units : unit_map G) (p : Process G) (f : UnitFunction G)
  (tr : list (UnitRun G)) (l : list (string * UnitFunction G)).

(** Visiting [units1 ++ units2] is visiting [units1] and then [units2]
    from the client state the calls for [units1] left. *)
Lemma executions_app units1 units2 (g : G) :
  executions (units1 ++ units2) g
  = match executions units1 g with
    | None => None
    | Some tr1 =>
        match executions units2 (final_globals g tr1) with
        | None => None
        | Some tr2 => Some (tr1 ++ tr2)
        end
    end.
Proof.
  revert g. induction units1 as [|[n f] units1 IH]; intros g; simpl.
  - change (final_globals g []) with g.
    destruct (executions units2 g); reflexivity.
  - destruct (f UnitFunctionResult_default g) as [[[r g'] o]|];
      [|reflexivity].
    rewrite IH. destruct (executions units1 g') as [tr1|]; [|reflexivity].
    unfold final_globals at 2. simpl map. rewrite last_cons.
    fold (final_globals g' tr1).
    destruct (executions units2 (final_globals g' tr1)); reflexivity.
Qed.

Lemma sorted_filter_names tr (keep : UnitRun G -> bool) :
  StronglySorted name_lt (map unit_name tr) ->
  StronglySorted name_lt (map unit_name (filter keep tr)).
Proof.
  induction tr as [|e tr IH]; simpl; intros H; [constructor|].
  inversion H as [|? ? H' He]; subst.
  destruct (keep e); simpl; [|auto].
  constructor; [auto|].
  rewrite Forall_forall in *. intros x Hx. apply He.
  apply in_map_iff in Hx. destruct Hx as (e' & <- & He').
  apply filter_In in He'. apply in_map, He'.
Qed.

(** X5.  In a run of the cases registered since program start, the
    names [Run] collects in [failures], and prints in its summary, come
    in strictly increasing name order, so none of them twice, and each is
    the name of a registered case whose call recorded a failure. *)
Theorem failures_in_name_order (g : G) (out : list string) l tr :
  let p := static_init l {| instance := None; globals := g; cout := out |} in
  executions (catalog p) (globals p) = Some tr ->
  exists failures q,
    Run_loop (catalog p) [] (snd (Instance p)) = Some (failures, q)
    /\ StronglySorted name_lt failures
    /\ NoDup failures
    /\ forall n, In n failures <->
         exists e, In e tr /\ unit_name e = n
                   /\ success (unit_result e) = false.
Proof.
  intros p Htr. rewrite Run_loop_spec.
  destruct (Instance_spec p) as (_ & Hg & _). rewrite Hg, Htr.
  do 2 eexists. split; [reflexivity|]. simpl.
  assert (Hs : StronglySorted name_lt (map unit_name (filter failed tr))).
  { apply sorted_filter_names.
    rewrite (executions_names _ _ _ Htr).
    apply (static_init_ordered l), ordered_nil. }
  split; [exact Hs|]. split.
  - clear -Hs. induction Hs as [|a names _ IH Ha]; constructor; [|exact IH].
    intros Hin. rewrite Forall_forall in Ha.
    exact (name_lt_irrefl a (Ha a Hin)).
  - intros n. rewrite in_map_iff. split.
    + intros (e & <- & He). apply filter_In in He. destruct He as [He Hf].
      exists e. split; [exact He|]. split; [reflexivity|].
      unfold failed in Hf. destruct (success (unit_result e));
        [discriminate|reflexivity].
    + intros (e & He & <- & Hf). exists e. split; [reflexivity|].
      apply filter_In. split; [exact He|].
      unfold failed. rewrite Hf. reflexivity.
Qed.

(** X6.  When every registered case returns and none recorded a failure,
    [Run] returns [true]; after the per-case reports it prints the two
    separators, "[    ] All tests passed" and a separator, and it leaves
    the client state as the last call left it. *)
Theorem Run_all_passed p tr :
  executions (catalog p) (globals p) = Some tr ->
  (forall e, In e tr -> success (unit_result e) = true) ->
  exists p',
    Run p = Some (true, p')
    /\ cout p'
       = cout p ++ flat_map report tr
         ++ [MICROUNIT_SEPARATOR; MICROUNIT_SEPARATOR;
             "[    ] All tests passed"; MICROUNIT_SEPARATOR]
    /\ globals p' = final_globals (globals p) tr
    /\ catalog p' = catalog p.
Proof.
  intros Htr Hall. apply filter_failed_nil in Hall.
  rewrite Run_spec, Htr, Hall. cbn [map]. unfold Run_summary, endl.
  cbn [cout instance globals]. eexists. split; [reflexivity|].
  cbn [cout globals]. repeat rewrite <- app_assoc.
  split; [reflexivity|]. split; [reflexivity|].
  unfold catalog at 1, Instance. reflexivity.
Qed.

(** X7.  [Run] has no isolation of cases: when the calls for the
    entries before some case return and the call of that case does not,
    [Run] does not return either, whatever the entries after it are. *)
Theorem Run_blocked_by_nonreturning_case p units1 name f units2 tr1 :
  catalog p = units1 ++ (name, f) :: units2 ->
  executions units1 (globals p) = Some tr1 ->
  f UnitFunctionResult_default (final_globals (globals p) tr1) = None ->
  Run p = None
  /\ forall failures, Run_loop (catalog p) failures (snd (Instance p)) = None.
Proof.
  intros Hc H1 Hf.
  assert (E : executions (catalog p) (globals p) = None).
  { rewrite Hc, executions_app, H1. simpl. rewrite Hf. reflexivity. }
  split; [apply Run_returns, E|].
  intros failures. rewrite Run_loop_spec.
  destruct (Instance_spec p) as (_ & Hg & _). rewrite Hg, E. reflexivity.
Qed.

End DriverMore.

(** * Further properties of case bodies *)

Section BodiesMore.

Context {G : Type}.
Implicit Types (s body rest : stmt G) (c condition : expr G bool)
  (st : State G) (p : Process G) (units : unit_map G).

(** X1.  Let control arrive, in a case body, at [PASS()].  The body
    completes right there by [return;] with [success == true], whatever
    [success] held before, the client state untouched and nothing
    written; the driver's iteration for the case prints
    "[    ] Success" and leaves [failures] as it was. *)
Theorem PASS_passes_and_returns body st0 st1 (out0 : list string) :
  reaches PASS body st0 st1 out0 ->
  body st0 = Some (Return, ({| success := true |}, snd st1), out0)
  /\ UNIT body (fst st0) (snd st0)
     = Some ({| success := true |}, snd st1, out0)
  /\ forall name units failures p,
       st0 = (UnitFunctionResult_default, globals p) ->
       Run_loop ((name, UNIT body) :: units) failures p
       = Run_loop units failures
           {| instance := instance p; globals := snd st1;
              cout := cout p
                      ++ [MICROUNIT_SEPARATOR;
                          ("[    ] Test case '" ++ name ++ "'")%string]
                      ++ out0 ++ ["[    ] Success"] |}.
Proof.
  intros Hr.
  pose proof (reaches_return _ _ _ _ _ _ _ Hr (PASS_spec st1)) as Hb.
  rewrite app_nil_r in Hb.
  assert (HU : UNIT body (fst st0) (snd st0)
               = Some ({| success := true |}, snd st1, out0)).
  { unfold UNIT. destruct st0 as [r0 g0]. simpl. rewrite Hb. reflexivity. }
  split; [exact Hb|]. split; [exact HU|].
  intros name units failures p ->. simpl in HU.
  rewrite (Run_loop_step _ _ _ _ _ _ _ _ HU). reflexivity.
Qed.

(** X8.  [ASSERT_FALSE(c)] behaves in every state as [ASSERT_TRUE(!(c))]
    given the same diagnostic text: same completion, same final state,
    same lines written, and neither returns when the evaluation of [c]
    does not. *)
Theorem ASSERT_FALSE_is_ASSERT_TRUE_not (text : string) condition st :
  ASSERT_FALSE text condition st = ASSERT_TRUE text (not_ condition) st.
Proof.
  unfold ASSERT_FALSE, ASSERT_TRUE, if_, not_, bind, ret.
  destruct (condition st) as [[[b st1] o]|]; [|reflexivity].
  rewrite !app_nil_r, Bool.negb_involutive. reflexivity.
Qed.

(** In a loop whose iterations before the [k]-th complete normally
    without changing anything, control arrives wherever it arrives in
    the [k]-th iteration. *)
Lemma reaches_for_at s (n k : nat) (i : Z) (b : Z -> stmt G) st st1 out :
  (k < n)%nat ->
  (forall j, (i <= j < i + Z.of_nat k)%Z -> b j st = Some (Normal, st, [])) ->
  reaches s (b (i + Z.of_nat k)%Z) st st1 out ->
  reaches s (for_ n i b) st st1 out.
Proof.
  revert n i. induction k as [|k IH]; intros n i Hk Hbefore Hr.
  - destruct n as [|n]; [lia|]. apply reaches_for_now.
    rewrite Z.add_0_r in Hr. exact Hr.
  - destruct n as [|n]; [lia|].
    assert (H0 : b i st = Some (Normal, st, [])) by (apply Hbefore; lia).
    refine (reaches_later s _ _ _ _ _ _ _ H0 _).
    apply IH; [lia| |].
    + intros j Hj. apply Hbefore. lia.
    + replace (i + 1 + Z.of_nat k)%Z with (i + Z.of_nat (S k))%Z by lia.
      exact Hr.
Qed.

Lemma for_all_normal (n : nat) (i : Z) (b : Z -> stmt G) st :
  (forall j, (i <= j < i + Z.of_nat n)%Z -> b j st = Some (Normal, st, [])) ->
  for_ n i b st = Some (Normal, st, []).
Proof.
  revert i. induction n as [|n IH]; intros i Hb; [reflexivity|].
  cbn [for_]. rewrite (seq_normal _ _ _ _ _ (Hb i ltac:(lia))).
  rewrite IH; [reflexivity|]. intros j Hj. apply Hb. lia.
Qed.

(** X11.  A body that is a run of asserts on side-effect-free
    conditions passes exactly when every condition has the value its
    macro expects, and then writes nothing.  Otherwise it stops at the
    first violated assert: the only lines written are the diagnostic with
    that assert's text and "[    ] Test failed ", the asserts after it
    are not evaluated, and the function leaves [success == false].  The
    client state is never changed. *)
Theorem asserts_stop_at_first_violation
  (cs : list (bool * string * bool)) st :
  asserts cs st
  = match first_violated cs with
    | None => Some (Normal, st, [])
    | Some text =>
        Some (Return, ({| success := false |}, snd st),
              [("[    ] Test Assert failed: " ++ text)%string;
               "[    ] Test failed "])
    end
  /\ UNIT (asserts cs) (fst st) (snd st)
     = Some (match first_violated cs with
             | None => fst st
             | Some _ => {| success := false |}
             end,
             snd st,
             match first_violated cs with
             | None => []
             | Some text =>
                 [("[    ] Test Assert failed: " ++ text)%string;
                  "[    ] Test failed "]
             end)
  /\ (first_violated cs = None
      <-> forall a, In a cs -> fst (fst a) = snd a).
Proof.
  assert (Hb : asserts cs st
    = match first_violated cs with
      | None => Some (Normal, st, [])
      | Some text =>
          Some (Return, ({| success := false |}, snd st),
                [("[    ] Test Assert failed: " ++ text)%string;
                 "[    ] Test failed "])
      end).
  { induction cs as [|[[expected text] value] cs IH]; [reflexivity|].
    cbn [asserts first_violated].
    destruct expected, value; cbn [Bool.eqb].
    - rewrite (seq_normal _ _ _ _ _
                 (ASSERT_TRUE_holds text (ret true) st st [] eq_refl)).
      rewrite prepend_nil. exact IH.
    - apply seq_return.
      exact (ASSERT_TRUE_violated text (ret false) st st [] eq_refl).
    - apply seq_return.
      exact (ASSERT_FALSE_violated text (ret true) st st [] eq_refl).
    - rewrite (seq_normal _ _ _ _ _
                 (ASSERT_FALSE_holds text (ret false) st st [] eq_refl)).
      rewrite prepend_nil. exact IH. }
  split; [exact Hb|]. split.
  - unfold UNIT. destruct st as [r g]. simpl fst. simpl snd.
    rewrite Hb. destruct (first_violated cs); reflexivity.
  - clear Hb. induction cs as [|[[expected text] value] cs IH]; simpl.
    + split; [intros _ a []|reflexivity].
    + destruct (Bool.eqb expected value) eqn:E.
      * apply Bool.eqb_prop in E. rewrite IH. split.
        -- intros H a [<-|Ha]; [exact E|auto].
        -- intros H a Ha. auto.
      * split; [discriminate|].
        intros H. specialize (H _ (or_introl eq_refl)). simpl in H.
        subst value. rewrite Bool.eqb_reflx in E. discriminate.
Qed.

End BodiesMore.

(** * Further properties of [sample.cpp] *)

Section SampleMore.

Import Sample SampleLoops.

(** X9.  On the arguments for which no [int] operation of the two
    functions overflows, [Sample.Double] and [Sample.DoubleFlawed] give
    the value the code returns, and there [DoubleFlawed] agrees with
    [Double] exactly below 100.  So, for every bound [n] whose loop stays
    within [int], every value the loops compute is an [int], the loop of
    [Test_Double] completes without a failure, and the loop of
    [Test_Double_Flawed] completes without a failure when [n <= 100] and
    otherwise arrives at [FAIL()] in the iteration [i == 100] and returns
    there, the later iterations not being run.  The two cases of
    [sample.cpp] are these loops at [n = 1000]. *)
Theorem sample_loops (n : nat) (st : State unit) :
  (3 * Z.of_nat n <= 2147483647)%Z ->
  (forall i, (-2147483648 <= 2 * i)%Z -> (3 * i <= 2147483647)%Z ->
     (DoubleFlawed i = Double i <-> (i < 100)%Z))
  /\ (forall i, (0 <= i < Z.of_nat n)%Z ->
        (-2147483648 <= 2 * i <= 2147483647)%Z
        /\ (-2147483648 <= Double i <= 2147483647)%Z
        /\ (-2147483648 <= DoubleFlawed i <= 2147483647)%Z)
  /\ Double_check n st = Some (Normal, st, [])
  /\ ((n <= 100)%nat -> DoubleFlawed_check n st = Some (Normal, st, []))
  /\ ((100 < n)%nat ->
      reaches FAIL (DoubleFlawed_check n) st st []
      /\ DoubleFlawed_check n st
         = Some (Return, ({| success := false |}, snd st),
                 ["[    ] Test failed "]))
  /\ Test_Double = UNIT (Double_check 1000)
  /\ Test_Double_Flawed = UNIT (DoubleFlawed_check 1000).
Proof.
  intros Hint.
  assert (Hagree : forall i,
            (-2147483648 <= 2 * i)%Z -> (3 * i <= 2147483647)%Z ->
            (DoubleFlawed i = Double i <-> (i < 100)%Z)).
  { intros i _ _. unfold DoubleFlawed, Double.
    destruct (Z.ltb_spec i 100); split; intros; lia. }
  assert (Hrange : forall i, (0 <= i < Z.of_nat n)%Z ->
            (-2147483648 <= 2 * i <= 2147483647)%Z
            /\ (-2147483648 <= Double i <= 2147483647)%Z
            /\ (-2147483648 <= DoubleFlawed i <= 2147483647)%Z).
  { intros i Hi. unfold DoubleFlawed, Double.
    destruct (Z.ltb_spec i 100); lia. }
  assert (Hok : forall i, (0 <= i < Z.of_nat n)%Z -> (i < 100)%Z ->
            if_ (ret (negb (DoubleFlawed i =? 2 * i)%Z)) FAIL st
            = Some (Normal, st, [])).
  { intros i Hi Hlt.
    apply (proj2 (Hagree i ltac:(lia) ltac:(lia))) in Hlt.
    unfold Double in Hlt. apply Z.eqb_eq in Hlt.
    unfold if_, bind, ret. rewrite Hlt. reflexivity. }
  split; [exact Hagree|]. split; [exact Hrange|]. split.
  { apply for_all_normal. intros j _. unfold Double, if_, bind, ret.
    rewrite Z.eqb_refl. reflexivity. }
  split.
  { intros Hn. apply for_all_normal. intros j Hj. apply Hok; lia. }
  split; [|split; reflexivity].
  intros Hn.
  assert (Hr : reaches FAIL (DoubleFlawed_check n) st st []).
  { apply (reaches_for_at FAIL n 100 0
             (fun i => if_ (ret (negb (DoubleFlawed i =? 2 * i)%Z)) FAIL));
      [exact Hn| |].
    - intros j Hj. apply Hok; lia.
    - exact (reaches_if_true FAIL _ FAIL st st [] st [] eq_refl
               (reaches_here FAIL st)). }
  split; [exact Hr|].
  exact (reaches_return _ _ _ _ _ _ _ Hr (FAIL_spec st)).
Qed.

End SampleMore.

(** * The further properties at [sample.cpp] *)

Section SampleMoreRuns.

Import Sample SampleLoops.

(** [PASS()] reached after [success] was set to [false], and followed by
    [FAIL()]. *)
Lemma PASS_passes_and_returns_sample :
  let st0 : State unit := (UnitFunctionResult_default, tt) in
  let st1 : State unit := ({| success := false |}, tt) in
  let body : stmt unit := seq (set_success false) (seq PASS FAIL) in
  reaches PASS body st0 st1 []
  /\ UNIT body UnitFunctionResult_default tt
     = Some ({| success := true |}, tt, []).
Proof.
  intros st0 st1 body.
  assert (Hr : reaches PASS body st0 st1 []).
  { exact (reaches_later PASS (set_success false) (seq PASS FAIL)
             st0 st1 [] st1 [] eq_refl
             (reaches_first PASS PASS FAIL st1 st1 []
                (reaches_here PASS st1))). }
  split; [exact Hr|].
  exact (proj1 (proj2 (PASS_passes_and_returns body st0 st1 [] Hr))).
Defined.

Lemma sample_names_NoDup : NoDup (map fst registrations).
Proof.
  simpl. repeat constructor; simpl; intuition discriminate.
Defined.

(** The four cases declared in the opposite order. *)
Lemma static_init_order_irrelevant_sample :
  NoDup (map fst registrations)
  /\ Permutation registrations (rev registrations)
  /\ static_init (rev registrations) start = at_main.
Proof.
  split; [exact sample_names_NoDup|].
  split; [apply Permutation_rev|].
  exact (proj1 (static_init_order_irrelevant tt [] registrations
                  (rev registrations) sample_names_NoDup
                  (Permutation_rev registrations))).
Defined.

(** Five registrations under four names: four entries, four calls. *)
Lemma catalog_size_is_distinct_names_sample :
  let l := registrations ++ [("Test_Double", Test_Double_Flawed)] in
  let p := static_init l start in
  executions (catalog p) (globals p) = Some trace
  /\ List.length (catalog p) = 4
  /\ List.length trace = 4
  /\ Run_loop (catalog p) [] (snd (Instance p))
     = Some (["Test_Double_Flawed"; "Test_Flawed_Two_Plus_Two"],
             {| instance := Some (fst (Instance p)); globals := tt;
                cout := flat_map report trace |}).
Proof.
  intros l p.
  assert (H : executions (catalog p) (globals p) = Some trace)
    by (vm_compute; reflexivity).
  pose proof (catalog_size_is_distinct_names tt [] l) as (Hlen & _ & Hrun).
  split; [exact H|]. split; [exact Hlen|].
  split; [exact (proj1 (Hrun trace H))|].
  exact (proj2 (proj2 (Hrun trace H)) []).
Defined.

(** The two failures of [sample.cpp] are collected in name order. *)
Lemma failures_in_name_order_sample :
  executions (catalog at_main) (globals at_main) = Some trace
  /\ exists failures q,
       Run_loop (catalog at_main) [] (snd (Instance at_main))
       = Some (failures, q)
       /\ StronglySorted name_lt failures.
Proof.
  assert (H : executions (catalog at_main) (globals at_main) = Some trace)
    by (vm_compute; reflexivity).
  split; [exact H|].
  destruct (failures_in_name_order tt [] registrations trace H)
    as (failures & q & HR & Hs & _).
  exists failures, q. split; [exact HR|exact Hs].
Defined.

(** [sample.cpp] without its two flawed cases. *)
Lemma Run_all_passed_sample :
  let p := static_init [("Test_Two_Plus_Two", Test_Two_Plus_Two);
                        ("Test_Double", Test_Double)] start in
  let tr : list (UnitRun unit) :=
    [{| unit_name := "Test_Double"; unit_entry := tt;
        unit_result := {| success := true |}; unit_exit := tt;
        unit_output := [] |};
     {| unit_name := "Test_Two_Plus_Two"; unit_entry := tt;
        unit_result := {| success := true |}; unit_exit := tt;
        unit_output := [] |}] in
  executions (catalog p) (globals p) = Some tr
  /\ (forall e, In e tr -> success (unit_result e) = true)
  /\ exists p',
       Run p = Some (true, p')
       /\ cout p'
          = [MICROUNIT_SEPARATOR; "[    ] Test case 'Test_Double'";
             "[    ] Success";
             MICROUNIT_SEPARATOR; "[    ] Test case 'Test_Two_Plus_Two'";
             "[    ] Success";
             MICROUNIT_SEPARATOR; MICROUNIT_SEPARATOR;
             "[    ] All tests passed"; MICROUNIT_SEPARATOR].
Proof.
  intros p tr.
  assert (H : executions (catalog p) (globals p) = Some tr)
    by (vm_compute; reflexivity).
  assert (Hall : forall e, In e tr -> success (unit_result e) = true).
  { intros e [<-|[<-|[]]]; reflexivity. }
  split; [exact H|]. split; [exact Hall|].
  destruct (Run_all_passed p tr H Hall) as (p' & HR & Hc & _).
  exists p'. split; [exact HR|exact Hc].
Defined.

(** A case that never returns, declared between two cases of
    [sample.cpp]. *)
Lemma Run_blocked_by_nonreturning_case_sample :
  let hang : UnitFunction unit := fun _ _ => None in
  let p := static_init [("Test_Two_Plus_Two", Test_Two_Plus_Two);
                        ("Test_Hang", hang);
                        ("Test_Double", Test_Double)] start in
  let tr1 : list (UnitRun unit) :=
    [{| unit_name := "Test_Double"; unit_entry := tt;
        unit_result := {| success := true |}; unit_exit := tt;
        unit_output := [] |}] in
  catalog p = [("Test_Double", Test_Double)]
              ++ ("Test_Hang", hang)
                 :: [("Test_Two_Plus_Two", Test_Two_Plus_Two)]
  /\ executions [("Test_Double", Test_Double)] (globals p) = Some tr1
  /\ Run p = None.
Proof.
  intros hang p tr1.
  assert (H1 : catalog p = [("Test_Double", Test_Double)]
                           ++ ("Test_Hang", hang)
                              :: [("Test_Two_Plus_Two", Test_Two_Plus_Two)])
    by reflexivity.
  assert (H2 : executions [("Test_Double", Test_Double)] (globals p)
               = Some tr1) by (vm_compute; reflexivity).
  split; [exact H1|]. split; [exact H2|].
  exact (proj1 (Run_blocked_by_nonreturning_case p _ "Test_Hang" hang _ tr1
                  H1 H2 eq_refl)).
Defined.

(** The loops at the bound of [sample.cpp], and at the last bound the
    flawed loop survives. *)
Lemma sample_loops_sample :
  let st : State unit := (UnitFunctionResult_default, tt) in
  (3 * Z.of_nat 1000 <= 2147483647)%Z
  /\ (100 < 1000)%nat
  /\ Double_check 1000 st = Some (Normal, st, [])
  /\ DoubleFlawed_check 1000 st
     = Some (Return, ({| success := false |}, tt), ["[    ] Test failed "])
  /\ (100 <= 100)%nat
  /\ DoubleFlawed_check 100 st = Some (Normal, st, [])
  /\ (-2147483648 <= 2 * 100)%Z /\ (3 * 100 <= 2147483647)%Z
  /\ (DoubleFlawed 100 = Double 100 <-> (100 < 100)%Z)
  /\ (0 <= 999 < Z.of_nat 1000)%Z
  /\ (-2147483648 <= DoubleFlawed 999 <= 2147483647)%Z.
Proof.
  intros st.
  assert (H : (3 * Z.of_nat 1000 <= 2147483647)%Z) by (vm_compute; discriminate).
  assert (H' : (3 * Z.of_nat 100 <= 2147483647)%Z) by (vm_compute; discriminate).
  assert (Hlt : (100 < 1000)%nat) by lia.
  assert (Hlo : (-2147483648 <= 2 * 100)%Z) by (vm_compute; discriminate).
  assert (Hhi : (3 * 100 <= 2147483647)%Z) by (vm_compute; discriminate).
  assert (Hi : (0 <= 999 < Z.of_nat 1000)%Z)
    by (split; vm_compute; [discriminate|reflexivity]).
  pose proof (sample_loops 1000 st H) as (Hagree & Hrange & Hd & _ & Hf & _).
  pose proof (sample_loops 100 st H') as (_ & _ & _ & Hle & _).
  split; [exact H|]. split; [exact Hlt|]. split; [exact Hd|].
  split; [exact (proj2 (Hf Hlt))|]. split; [apply le_n|].
  split; [exact (Hle (le_n 100))|].
  split; [exact Hlo|]. split; [exact Hhi|].
  split; [exact (Hagree 100%Z Hlo Hhi)|].
  split; [exact Hi|].
  exact (proj2 (proj2 (Hrange 999%Z Hi))).
Defined.

(** One more case registered at the entry of [main]. *)
Lemma RegisterFunction_only_adds_sample :
  ordered (catalog at_main)
  /\ List.length (catalog (RegisterFunction "Test_More" Test_Double at_main))
     = 5
  /\ List.length (catalog (RegisterFunction "Test_Double" Test_Double_Flawed
                             at_main))
     = 4.
Proof.
  assert (H : ordered (catalog at_main)).
  { apply (static_init_ordered registrations), ordered_nil. }
  split; [exact H|]. split.
  - exact (proj1 (proj2 (proj2
      (RegisterFunction_only_adds "Test_More" Test_Double at_main H)))).
  - exact (proj1 (proj2 (proj2
      (RegisterFunction_only_adds "Test_Double" Test_Double_Flawed
         at_main H)))).
Defined.

End SampleMoreRuns.
